(** * fsql, package transform: the recursive Parse engine (parse.go)

    A shallow embedding of [Parse], [pFormat], [pFormatSize] and
    [pFormatTime].  Go values of type [interface{}] are a tagged union
    carrying their dynamic type; slices and maps are references into a
    store, because [Parse] writes transformed elements back into the
    caller's slice and allocates the map it returns.  A run-time panic
    (a failed type assertion, an index out of range, a reflect
    operation that refuses its operand) is an outcome of its own, kept
    apart from a returned [error]. *)

From Stdlib Require Import Floats.PrimFloat Floats.SpecFloat Floats.FloatAxioms.
From Stdlib Require Import ZArith String Ascii.
From stdpp Require Import list relations.

Local Open Scope string_scope.
Local Open Scope list_scope.
Set Warnings "-register-all".

(** ** Go types and values *)

Inductive gotype : Type :=
| TString
| TFloat64
| TBool
| TInt
| TTime
| TIface
| TSlice (elem : gotype)
| TArray (len : nat) (elem : gotype)
| TMap (key elem : gotype).

#[global] Instance gotype_eq_dec : EqDecision gotype.
Proof. solve_decision. Defined.

(** [reflect.Kind], for the kinds the model has values of. *)
Inductive Kind : Type :=
| KString | KFloat64 | KBool | KInt | KStruct | KInterface
| KSlice | KArray | KMap.

#[global] Instance Kind_eq_dec : EqDecision Kind.
Proof. solve_decision. Defined.

Definition kind_of (t : gotype) : Kind :=
  match t with
  | TString => KString
  | TFloat64 => KFloat64
  | TBool => KBool
  | TInt => KInt
  | TTime => KStruct
  | TIface => KInterface
  | TSlice _ => KSlice
  | TArray _ _ => KArray
  | TMap _ _ => KMap
  end.

Module strconv.
(** [*strconv.NumError], the error of [strconv.ParseFloat]. *)
Record NumError : Type := mkNumError { Func : string; Num : string; Err : string }.
End strconv.

Module time.
(** [time.Time]: the wall and monotonic words and the location
    pointer, compared field by field by Go's [==]. *)
Record Time : Type := mkTime { wall : Z; ext : Z; loc : Z }.

(** [*time.ParseError]. *)
Record ParseError : Type :=
  mkParseError { Layout : string; Value : string; LayoutElem : string;
                 ValueElem : string; Message : string }.

Definition RFC3339 : string := "2006-01-02T15:04:05Z07:00".
Definition UnixDate : string := "Mon Jan _2 15:04:05 MST 2006".

Definition eqb (a b : Time) : bool :=
  (wall a =? wall b)%Z && (ext a =? ext b)%Z && (loc a =? loc b)%Z.
End time.

(** The errors [Parse] can return.  [ErrNotImplemented] and
    [ErrUnsupportedFormat] are declared elsewhere in the package; the
    source builds them with two positional string fields. *)
Inductive error : Type :=
| ErrNotImplemented (name attribute : string)
| ErrUnsupportedFormat (format attribute : string)
| NumErr (e : strconv.NumError)
| TimeErr (e : time.ParseError).

(** A location of the store: the identity of a slice's backing array
    or of a map. *)
Abbreviation loc := nat (only parsing).

(** A value held in an [interface{}].  [VNil] is the nil interface.
    A slice is its element type and its backing array; an array is a
    value and carries its elements; a map is its key and element types
    and its identity.  [VInt] stands for every other comparable
    non-string scalar. *)
Inductive value : Type :=
| VNil
| VString (s : string)
| VFloat64 (f : float)
| VBool (b : bool)
| VInt (z : Z)
| VTime (t : time.Time)
| VSlice (elem : gotype) (l : loc)
| VArray (elem : gotype) (xs : list value)
| VMap (key elem : gotype) (l : loc).

(** [reflect.TypeOf]: the dynamic type, [None] for the nil interface. *)
Definition TypeOf (v : value) : option gotype :=
  match v with
  | VNil => None
  | VString _ => Some TString
  | VFloat64 _ => Some TFloat64
  | VBool _ => Some TBool
  | VInt _ => Some TInt
  | VTime _ => Some TTime
  | VSlice e _ => Some (TSlice e)
  | VArray e xs => Some (TArray (length xs) e)
  | VMap k e _ => Some (TMap k e)
  end.

(** Go's assignability of a non-nil dynamic value to a static type:
    identical types, or the target is [interface{}]. *)
Definition assignable (v : value) (t : gotype) : bool :=
  match TypeOf v with
  | None => false
  | Some tv => bool_decide (t = TIface) || bool_decide (tv = t)
  end.

(** Whether a value can be a map key: slices and maps cannot, an array
    can when its elements can. *)
Fixpoint hashable (v : value) : bool :=
  match v with
  | VSlice _ _ | VMap _ _ _ => false
  | VArray _ xs => forallb hashable xs
  | _ => true
  end.

(** Two lists agree element by element under [f]. *)
Definition all2 {A : Type} (f : A -> A -> bool) : list A -> list A -> bool :=
  fix go (xs ys : list A) {struct xs} : bool :=
    match xs, ys with
    | [], [] => true
    | x :: xs', y :: ys' => f x y && go xs' ys'
    | _, _ => false
    end.

(** Go's [==] on two interface values used as map keys. *)
Fixpoint key_eqb (a b : value) {struct a} : bool :=
  match a, b with
  | VNil, VNil => true
  | VString s, VString t => String.eqb s t
  | VFloat64 x, VFloat64 y => PrimFloat.eqb x y
  | VBool x, VBool y => Bool.eqb x y
  | VInt x, VInt y => Z.eqb x y
  | VTime x, VTime y => time.eqb x y
  | VArray e xs, VArray e' ys => bool_decide (e = e') && all2 key_eqb xs ys
  | _, _ => false
  end.

(** ** The store *)

Record store : Type :=
  mkStore { slices : list (list value); maps : list (list (value * value)) }.

(** The elements of the backing array at [l].  The values of a program
    name locations the store holds; a nil slice is an empty backing
    array, which this code cannot tell from it.  A location the store
    does not hold reads as empty. *)
Definition elems (st : store) (l : loc) : list value :=
  default [] (slices st !! l).

(** The entries of the map at [l], a nil map being an empty one; a
    location the store does not hold reads as empty. *)
Definition entries (st : store) (l : loc) : list (value * value) :=
  default [] (maps st !! l).

(** [a[i] = v] on the backing array at [l]. *)
Definition write (st : store) (l : loc) (i : nat) (v : value) : store :=
  mkStore (alter (fun xs => <[i := v]> xs) l (slices st)) (maps st).

(** [m[k] = v] on the runtime map: an entry whose key is [==] to [k]
    is replaced (the runtime also stores the new key), otherwise the
    entry is added. *)
Fixpoint map_set (k v : value) (kvs : list (value * value)) : list (value * value) :=
  match kvs with
  | [] => [(k, v)]
  | (k', v') :: rest =>
      if key_eqb k' k then (k, v) :: rest else (k', v') :: map_set k v rest
  end.

(** [m[k] = v] on the map at [l]. *)
Definition map_put (st : store) (l : loc) (k v : value) : store :=
  mkStore (slices st) (alter (map_set k v) l (maps st)).

(** [reflect.MakeMap]: a new empty map at a location the store did not
    hold. *)
Definition MakeMap (st : store) : loc * store :=
  (length (maps st), mkStore (slices st) (maps st ++ [[]])).

(** [reflect.Value.MapKeys]: a snapshot of the keys.  Go leaves the
    order unspecified; the order of the entries stands for it, and
    every statement below holds for every order of them. *)
Definition MapKeys (st : store) (l : loc) : list value := (entries st l).*1.

(** [result.SetMapIndex(key, elem)] on a map of type [map[kt]et]:
    [None] is the panic of reflect on a key or element that is not
    assignable, and of the runtime on a key that cannot be hashed. *)
Definition SetMapIndex (st : store) (kt et : gotype) (l : loc) (k v : value)
  : option store :=
  if assignable k kt && assignable v et && hashable k
  then Some (map_put st l k v)
  else None.

(** ** The request *)

Record ParseParams : Type :=
  mkParseParams { Attribute : string; Value : value; Name : string; Args : list string }.

(** [p.Value = v] *)
Definition with_Value (p : ParseParams) (v : value) : ParseParams :=
  mkParseParams (Attribute p) v (Name p) (Args p).

(** The result of a call: the pair [(val, err)] it returns together
    with the request and the store as the call leaves them, or a
    panic, or the model's fuel ran out (the recursion of the source is
    unbounded on a slice that contains itself). *)
Inductive outcome : Type :=
| Done (val : value) (err : option error) (p : ParseParams) (st : store)
| Panic
| OutOfFuel.

(** The result of a helper that touches neither the request nor the
    store. *)
Inductive ret : Type :=
| Ret (val : value) (err : option error)
| Panics.

(** [v.(string)] *)
Definition as_string (v : value) : option string :=
  match v with VString s => Some s | _ => None end.

(** ** Case mapping of the standard library on ASCII *)

Definition is_ascii_byte (c : ascii) : bool := (nat_of_ascii c <? 128)%nat.

Fixpoint isASCII (s : string) : bool :=
  match s with
  | EmptyString => true
  | String c r => is_ascii_byte c && isASCII r
  end.

Definition upper_byte (c : ascii) : ascii :=
  let n := nat_of_ascii c in
  if (97 <=? n)%nat && (n <=? 122)%nat then ascii_of_nat (n - 32) else c.

Definition lower_byte (c : ascii) : ascii :=
  let n := nat_of_ascii c in
  if (65 <=? n)%nat && (n <=? 90)%nat then ascii_of_nat (n + 32) else c.

Fixpoint map_bytes (f : ascii -> ascii) (s : string) : string :=
  match s with
  | EmptyString => EmptyString
  | String c r => String (f c) (map_bytes f r)
  end.

(** ** Equality of float64 keys *)


(** ** What parse.go takes from outside

    The standard library's number and time parsers, its case mapping
    beyond ASCII, and the package's own [formatName], which another
    file of the package defines. *)
Class Externals : Type := {
  (** [strings.Map(unicode.ToUpper, s)], the path of [strings.ToUpper]
      for a string with a byte above 0x7f *)
  unicode_ToUpper : string -> string;
  unicode_ToLower : string -> string;
  (** [strconv.ParseFloat(s, 64)] *)
  ParseFloat : string -> float + strconv.NumError;
  (** [time.Parse(layout, value)] *)
  time_Parse : string -> string -> time.Time + time.ParseError;
  (** Modelled from the spec: [formatName(arg, name)] applies the
      naming convention [arg] to the string [name] and gives the
      transformed string, or the nil interface for a convention it
      does not know *)
  formatName : string -> string -> option string
}.

Section Transform.
Context `{Ext : Externals}.

(** [strings.ToUpper]: bytes are mapped one by one when the string is
    ASCII, the Unicode mapping is used otherwise. *)
Definition strings_ToUpper (s : string) : string :=
  if isASCII s then map_bytes upper_byte s else unicode_ToUpper s.

Definition strings_ToLower (s : string) : string :=
  if isASCII s then map_bytes lower_byte s else unicode_ToLower s.

(** Modelled from the spec: [upper] and [lower] are defined outside
    parse.go; the specification gives them as the locale-insensitive
    upper- and lower-case conversion of a string, which is
    [strings.ToUpper] and [strings.ToLower]. *)
Definition upper (s : string) : string := strings_ToUpper s.
Definition lower (s : string) : string := strings_ToLower s.

(** [1 << 10] and [1 << 20] as the float64 constants the compiler
    converts them to. *)
Definition shl_1_10 : float := 1024%float.
Definition shl_1_20 : float := 1048576%float.

Definition pFormatSize (p : ParseParams) : ret :=
  match as_string (Value p) with
  | None => Panics
  | Some s =>
      match ParseFloat s with
      | inr e => Ret VNil (Some (NumErr e))
      | inl size =>
          match Args p with
          | [] => Panics
          | a :: _ =>
              let u := strings_ToUpper a in
              if String.eqb u "B" then Ret (VFloat64 (size * 1)) None
              else if String.eqb u "KB" then Ret (VFloat64 (size * shl_1_10)) None
              else if String.eqb u "MB" then Ret (VFloat64 (size * shl_1_20)) None
              else if String.eqb u "GB" then Ret (VFloat64 (size * shl_1_20)) None
              else Ret VNil None
          end
      end
  end.

(** The layout [pFormatTime] hands to [time.Parse] for [Args[0]]. *)
Definition time_layout (a : string) : string :=
  let u := strings_ToUpper a in
  if String.eqb u "ISO" then time.RFC3339
  else if String.eqb u "UNIX" then time.UnixDate
  else "Jan 02 2006 15 04".

Definition pFormatTime (p : ParseParams) : ret :=
  match Args p with
  | [] => Panics
  | a :: _ =>
      match as_string (Value p) with
      | None => Panics
      | Some s =>
          match time_Parse (time_layout a) s with
          | inr e => Ret VNil (Some (TimeErr e))
          | inl t => Ret (VTime t) None
          end
      end
  end.

Definition is_nil (v : value) : bool :=
  match v with VNil => true | _ => false end.

Definition pFormat (p : ParseParams) : ret :=
  let r :=
    if String.eqb (Attribute p) "name" then
      match Args p with
      | [] => Panics
      | a :: _ =>
          match as_string (Value p) with
          | None => Panics
          | Some s =>
              Ret (match formatName a s with Some r => VString r | None => VNil end) None
          end
      end
    else if String.eqb (Attribute p) "size" then pFormatSize p
    else if String.eqb (Attribute p) "time" then pFormatTime p
    else Ret VNil None in
  match r with
  | Panics => Panics
  | Ret _ (Some e) => Ret VNil (Some e)
  | Ret val None =>
      if is_nil val then
        match Args p with
        | [] => Panics
        | a :: _ => Ret VNil (Some (ErrUnsupportedFormat a (Attribute p)))
        end
      else Ret val None
  end.

(** The [switch strings.ToUpper(p.Name)] of [Parse] and the two
    checks after it: the scalar path. *)
Definition dispatch (p : ParseParams) : ret :=
  let n := strings_ToUpper (Name p) in
  let r :=
    if String.eqb n "FORMAT" then pFormat p
    else if String.eqb n "UPPER" then
      match as_string (Value p) with
      | None => Panics
      | Some s => Ret (VString (upper s)) None
      end
    else if String.eqb n "LOWER" then
      match as_string (Value p) with
      | None => Panics
      | Some s => Ret (VString (lower s)) None
      end
    else Ret VNil None in
  match r with
  | Panics => Panics
  | Ret _ (Some e) => Ret VNil (Some e)
  | Ret val None =>
      if is_nil val then Ret VNil (Some (ErrNotImplemented (Name p) (Attribute p)))
      else Ret val None
  end.

(** [s := reflect.ValueOf(p.Value)] for a slice or an array.  The
    elements of a slice are addressable; those of an array held in an
    interface are not. *)
Inductive rvalue : Type :=
| RSlice (elem : gotype) (l : loc)
| RArray (elem : gotype) (xs : list value).

Definition ValueOf (v : value) : option rvalue :=
  match v with
  | VSlice e l => Some (RSlice e l)
  | VArray e xs => Some (RArray e xs)
  | _ => None
  end.

Definition rLen (st : store) (s : rvalue) : nat :=
  match s with
  | RSlice _ l => length (elems st l)
  | RArray _ xs => length xs
  end.

(** [s.Index(i).Interface()] *)
Definition rIndex (st : store) (s : rvalue) (i : nat) : option value :=
  match s with
  | RSlice _ l => elems st l !! i
  | RArray _ xs => xs !! i
  end.

(** [s.Index(i).Set(reflect.ValueOf(val))]; [None] is the panic of
    reflect on an element that cannot be set or a value that is not
    assignable to the element type. *)
Definition rSet (st : store) (s : rvalue) (i : nat) (val : value) : option store :=
  match s with
  | RSlice e l => if assignable val e then Some (write st l i val) else None
  | RArray _ _ => None
  end.

(** [s.Interface()] *)
Definition rInterface (s : rvalue) : value :=
  match s with
  | RSlice e l => VSlice e l
  | RArray e xs => VArray e xs
  end.

(** The loop over a slice or array, from index [i] with [todo]
    iterations left; [rec] is the recursive call of [Parse]. *)
Fixpoint seq_loop (rec : ParseParams -> store -> outcome) (s : rvalue)
    (i todo : nat) (p : ParseParams) (st : store) : outcome :=
  match todo with
  | 0 => Done (rInterface s) None p st
  | S todo' =>
      match rIndex st s i with
      | None => Panic
      | Some x =>
          match rec (with_Value p x) st with
          | Done _ (Some e) p' st' => Done VNil (Some e) p' st'
          | Done val None p' st' =>
              match rSet st' s i val with
              | None => Panic
              | Some st'' => seq_loop rec s (S i) todo' p' st''
              end
          | Panic => Panic
          | OutOfFuel => OutOfFuel
          end
      end
  end.

(** The loop over the keys of a map, filling the map at [result]. *)
Fixpoint map_loop (rec : ParseParams -> store -> outcome) (kt et : gotype)
    (result : loc) (keys : list value) (p : ParseParams) (st : store) : outcome :=
  match keys with
  | [] => Done (VMap kt et result) None p st
  | key :: keys' =>
      match rec (with_Value p key) st with
      | Done _ (Some e) p' st' => Done VNil (Some e) p' st'
      | Done val None p' st' =>
          match SetMapIndex st' kt et result val (VBool true) with
          | None => Panic
          | Some st'' => map_loop rec kt et result keys' p' st''
          end
      | Panic => Panic
      | OutOfFuel => OutOfFuel
      end
  end.

(** The result of a helper as the result of the call: the request and
    the store are left as they are. *)
Definition lift (r : ret) (p : ParseParams) (st : store) : outcome :=
  match r with
  | Ret val err => Done val err p st
  | Panics => Panic
  end.

(** [Parse(p)], with [fuel] bounding the depth of the recursion. *)
Fixpoint Parse (fuel : nat) (p : ParseParams) (st : store) : outcome :=
  match fuel with
  | 0 => OutOfFuel
  | S n =>
      match TypeOf (Value p) with
      | None => Panic
      | Some ty =>
          let kind := kind_of ty in
          if bool_decide (kind = KSlice) || bool_decide (kind = KArray) then
            match ValueOf (Value p) with
            | Some s => seq_loop (Parse n) s 0 (rLen st s) p st
            | None => Panic
            end
          else if bool_decide (kind = KMap) then
            match Value p with
            | VMap kt et m =>
                let (result, st1) := MakeMap st in
                map_loop (Parse n) kt et result (MapKeys st m) p st1
            | _ => Panic
            end
          else lift (dispatch p) p st
      end
  end.

(** The values [Parse] classifies as neither sequence nor map. *)
Definition is_scalar (v : value) : bool :=
  match v with
  | VString _ | VFloat64 _ | VBool _ | VInt _ | VTime _ => true
  | _ => false
  end.

(** *** What the statements about sequences and maps speak of *)

(** The requests that differ at most in [Value]. *)
Definition same_request (p q : ParseParams) : Prop :=
  Attribute p = Attribute q /\ Name p = Name q /\ Args p = Args q.

(** The elements [xs], held at the indices [i], [i+1], ... of the
    backing array at [l], are transformed in index order: each by a
    call of [Parse] on the request with that element as [Value], which
    returns a value and no error; the value is one the element type
    [et] accepts and is written back at its index before the next
    call.  [vs] are the values returned and [st'] is the store after
    the last write. *)
Inductive transformed (n : nat) (p : ParseParams) (et : gotype) (l : loc)
  : nat -> store -> list value -> list value -> store -> Prop :=
| transformed_nil i st : transformed n p et l i st [] [] st
| transformed_cons i st x xs v vs p1 st1 st2 :
    Parse n (with_Value p x) st = Done v None p1 st1 ->
    assignable v et = true ->
    transformed n p et l (S i) (write st1 l i v) xs vs st2 ->
    transformed n p et l i st (x :: xs) (v :: vs) st2.


(** The slice a value is, if it is one. *)
Definition slice_part (v : value) : option (gotype * loc) :=
  match v with
  | VSlice e l => Some (e, l)
  | _ => None
  end.

(** Which cells of which backing arrays hold which slices. *)
Definition skel (st : store) : list (list (option (gotype * loc))) :=
  fmap (M := list) slice_part <$> slices st.

(** The backing array at [a] holds a slice of the backing array at [b]. *)
Definition edge (st : store) (a b : loc) : Prop :=
  exists i e, elems st a !! i = Some (VSlice e b).

(** [reaches st v l]: the backing array at [l] is that of the slice
    [v], or of a slice held at some depth in the elements of [v] or,
    for a map, in its keys. *)
Inductive reaches (st : store) : value -> loc -> Prop :=
| reaches_slice e l : reaches st (VSlice e l) l
| reaches_elem e l0 x l :
    x ∈ elems st l0 -> reaches st x l -> reaches st (VSlice e l0) l
| reaches_array e xs x l :
    x ∈ xs -> reaches st x l -> reaches st (VArray e xs) l
| reaches_key kt et m key l :
    key ∈ MapKeys st m -> reaches st key l -> reaches st (VMap kt et m) l.

(** A value that a call puts where another was: a scalar, or a map
    the store [st] did not hold. *)
Definition put_value (st : store) (v : value) : Prop :=
  is_scalar v = true \/ exists kt et m, v = VMap kt et m /\ length (maps st) <= m.

(** [later st st']: the store [st'] is [st] after some calls: every
    cell of a backing array holds what it held or a value put there,
    the maps of [st] are as they were, and the keys of the other maps
    can all be hashed. *)
Definition later (st st' : store) : Prop :=
  (forall l j x', elems st' l !! j = Some x' ->
     exists x, elems st l !! j = Some x /\ (x' = x \/ put_value st x'))
  /\ maps st `prefix_of` maps st'
  /\ (forall m key, length (maps st) <= m -> key ∈ MapKeys st' m -> hashable key = true).




(** The map built by entering the keys [vs] in turn, each with
    [true]. *)
Definition set_of_keys (vs : list value) : list (value * value) :=
  foldl (fun acc v => map_set v (VBool true) acc) [] vs.

(** The scalar [x], given as [Value] of the request [p], is
    transformed into [v], a value the type [t] accepts. *)
Definition scalar_result (p : ParseParams) (t : gotype) (x v : value) : Prop :=
  is_scalar x = true /\ dispatch (with_Value p x) = Ret v None /\ assignable v t = true.

End Transform.

(** ** A concrete environment

    The externals on the fragment the examples use: ASCII strings,
    unsigned decimal integers of at most fifteen digits (which float64
    holds exactly), and one RFC 3339 timestamp. *)

Definition digit_float (c : ascii) : option float :=
  match nat_of_ascii c with
  | 48 => Some 0%float | 49 => Some 1%float | 50 => Some 2%float
  | 51 => Some 3%float | 52 => Some 4%float | 53 => Some 5%float
  | 54 => Some 6%float | 55 => Some 7%float | 56 => Some 8%float
  | 57 => Some 9%float
  | _ => None
  end.

Fixpoint digits_float (s : string) (acc : float) : option float :=
  match s with
  | EmptyString => Some acc
  | String c r =>
      match digit_float c with
      | Some d => digits_float r (acc * 10 + d)%float
      | None => None
      end
  end.

Definition decimal_ParseFloat (s : string) : float + strconv.NumError :=
  if (0 <? String.length s)%nat && (String.length s <=? 15)%nat then
    match digits_float s 0%float with
    | Some f => inl f
    | None => inr (strconv.mkNumError "ParseFloat" s "invalid syntax")
    end
  else inr (strconv.mkNumError "ParseFloat" s "invalid syntax").

Definition sample_time_Parse (layout v : string) : time.Time + time.ParseError :=
  if String.eqb layout time.RFC3339 && String.eqb v "2020-01-02T15:04:05Z"
  then inl (time.mkTime 0 63713574245 0)
  else inr (time.mkParseError layout v "" "" "").

Definition sample_formatName (arg name : string) : option string :=
  if String.eqb (map_bytes upper_byte arg) "UPPER" then Some (map_bytes upper_byte name)
  else if String.eqb (map_bytes upper_byte arg) "LOWER" then Some (map_bytes lower_byte name)
  else None.

Definition ascii_env : Externals :=
  {| unicode_ToUpper := fun s => s;
     unicode_ToLower := fun s => s;
     ParseFloat := decimal_ParseFloat;
     time_Parse := sample_time_Parse;
     formatName := sample_formatName |}.

Definition empty_store : store := mkStore [] [].

(** Requests and stores of the examples. *)
Definition scalar_request (attribute : string) (v : value) (name : string)
    (args : list string) : ParseParams :=
  mkParseParams attribute v name args.

(** [[]string{"a", "b"}] *)
Definition store_ab : store := mkStore [[VString "a"; VString "b"]] [].
Definition store_AB : store := mkStore [[VString "A"; VString "B"]] [].

(** [[]T{"1", "x"}], before the call and after its first write *)
Definition store_1x : store := mkStore [[VString "1"; VString "x"]] [].
Definition store_1024x : store := mkStore [[VFloat64 1024; VString "x"]] [].


(** A map with the keys a, b, A and some payloads, and the store after
    a call under UPPER. *)
Definition keys_abA : list (value * value) :=
  [(VString "a", VBool false); (VString "b", VBool true); (VString "A", VBool false)].
Definition store_abA : store := mkStore [] [keys_abA].
Definition store_abA_upper : store :=
  mkStore [] [keys_abA; [(VString "A", VBool true); (VString "B", VBool true)]].


Definition num_error_x : error :=
  NumErr (strconv.mkNumError "ParseFloat" "x" "invalid syntax").

(** Two slices of strings, before and after a call on the first under
    UPPER. *)
Definition store_two : store := mkStore [[VString "a"]; [VString "b"]] [].
Definition store_two_upper : store := mkStore [[VString "A"]; [VString "b"]] [].


(** [[]interface{}{"a", nil}], before a call under UPPER and when the
    call reaches the nil element. *)
Definition store_a_nil : store := mkStore [[VString "a"; VNil]] [].
Definition store_A_nil : store := mkStore [[VString "A"; VNil]] [].

(** * Properties *)

Section Properties.
Context `{Ext : Externals}.

(** ** Reading and writing the store *)

Lemma elems_write st l i v : elems (write st l i v) l = <[i := v]> (elems st l).
Proof.
  unfold elems, write. simpl. rewrite list_lookup_alter_eq.
  destruct (slices st !! l); reflexivity.
Qed.

Lemma elems_eq a b l : slices a !! l = slices b !! l -> elems a l = elems b l.
Proof. unfold elems. intros ->. reflexivity. Qed.

Lemma slices_write_ne st l i v k : l <> k -> slices (write st l i v) !! k = slices st !! k.
Proof. intros H. simpl. apply list_lookup_alter_ne. exact H. Qed.

Lemma entries_map_put st r k v :
  entries (map_put st r k v) r = if decide (r < length (maps st))
                                then map_set k v (entries st r) else [].
Proof.
  unfold entries, map_put. simpl. rewrite list_lookup_alter_eq.
  destruct (maps st !! r) eqn:E; simpl.
  - apply lookup_lt_Some in E. destruct (decide _); [reflexivity|lia].
  - apply lookup_ge_None in E. destruct (decide _); [lia|reflexivity].
Qed.

Lemma maps_map_put_ne st r k v m : r <> m -> maps (map_put st r k v) !! m = maps st !! m.
Proof. intros H. simpl. apply list_lookup_alter_ne. exact H. Qed.

Lemma prefix_lookup_eq {A} (l1 l2 : list A) i :
  l1 `prefix_of` l2 -> i < length l1 -> l2 !! i = l1 !! i.
Proof. intros [k ->] Hi. apply lookup_app_l. exact Hi. Qed.


Lemma map_set_keys k v kvs e :
  e ∈ map_set k v kvs -> e.1 = k \/ e ∈ kvs.
Proof.
  induction kvs as [|[k' v'] kvs IH]; simpl; intros He.
  - apply list_elem_of_singleton in He. subst. left. reflexivity.
  - destruct (key_eqb k' k).
    + apply elem_of_cons in He as [->|He]; [left; reflexivity|right; right; exact He].
    + apply elem_of_cons in He as [->|He]; [right; left|].
      destruct (IH He) as [H|H]; [left; exact H|right; right; exact H].
Qed.



(** ** Go's [==] on keys is symmetric and transitive *)













(** ** The scalar path *)

Lemma Parse_scalar n p st :
  is_scalar (Value p) = true ->
  Parse (S n) p st = lift (dispatch p) p st.
Proof. destruct p as [a v nm args]; destruct v; simpl; (discriminate || reflexivity). Qed.

Lemma eqb_ne (a b : string) : a <> b -> String.eqb a b = false.
Proof. apply String.eqb_neq. Qed.

(** C1. On a scalar, a name whose upper-case form is none of FORMAT,
    UPPER, LOWER (the empty name and FOO among them) gives the error
    NotImplemented(name, attribute), with the request and the store
    untouched; and a name that is one of the three never gives that
    kind of error. *)
Theorem C1_unregistered_name_not_implemented n p st :
  is_scalar (Value p) = true ->
  (strings_ToUpper (Name p) <> "FORMAT" ->
   strings_ToUpper (Name p) <> "UPPER" ->
   strings_ToUpper (Name p) <> "LOWER" ->
   Parse (S n) p st
   = Done VNil (Some (ErrNotImplemented (Name p) (Attribute p))) p st)
  /\ (Name p = "" \/ Name p = "FOO" ->
      Parse (S n) p st
      = Done VNil (Some (ErrNotImplemented (Name p) (Attribute p))) p st)
  /\ (strings_ToUpper (Name p) = "FORMAT" \/
      strings_ToUpper (Name p) = "UPPER" \/
      strings_ToUpper (Name p) = "LOWER" ->
      forall val a b p' st',
        Parse (S n) p st <> Done val (Some (ErrNotImplemented a b)) p' st').
Proof.
  intros Hs. rewrite (Parse_scalar _ _ _ Hs).
  assert (Hne : strings_ToUpper (Name p) <> "FORMAT" ->
                strings_ToUpper (Name p) <> "UPPER" ->
                strings_ToUpper (Name p) <> "LOWER" ->
                lift (dispatch p) p st
                = Done VNil (Some (ErrNotImplemented (Name p) (Attribute p))) p st).
  { intros H1 H2 H3. unfold dispatch.
    rewrite (eqb_ne _ _ H1), (eqb_ne _ _ H2), (eqb_ne _ _ H3). reflexivity. }
  split; [exact Hne|]. split.
  - intros [E|E]; apply Hne; rewrite E; intro; discriminate.
  - intros Hreg val a b p' st'.
    destruct Hreg as [E|[E|E]]; unfold dispatch; rewrite E; simpl.
    + unfold pFormat.
      destruct (String.eqb (Attribute p) "name").
      { destruct (Args p); [discriminate|].
        destruct (as_string (Value p)); [|discriminate].
        destruct (formatName s s0); simpl; discriminate. }
      destruct (String.eqb (Attribute p) "size").
      { unfold pFormatSize.
        destruct (as_string (Value p)); [|discriminate].
        destruct (ParseFloat s); [|discriminate].
        destruct (Args p); [discriminate|].
        repeat (match goal with |- context [if ?c then _ else _] => destruct c end;
                simpl; try discriminate). }
      destruct (String.eqb (Attribute p) "time").
      { unfold pFormatTime.
        destruct (Args p); [discriminate|].
        destruct (as_string (Value p)); [|discriminate].
        destruct (time_Parse _ _); discriminate. }
      simpl. destruct (Args p); discriminate.
    + destruct (as_string (Value p)); discriminate.
    + destruct (as_string (Value p)); discriminate.
Qed.

(** The call on a string under FORMAT/size, once the number has been
    parsed and [Args[0]] is there. *)
Lemma Parse_format_size n p st s x a rest :
  strings_ToUpper (Name p) = "FORMAT" ->
  Attribute p = "size" ->
  Value p = VString s ->
  ParseFloat s = inl x ->
  Args p = a :: rest ->
  Parse (S n) p st =
  let u := strings_ToUpper a in
  if String.eqb u "B" then Done (VFloat64 (x * 1)) None p st
  else if String.eqb u "KB" then Done (VFloat64 (x * 1024)) None p st
  else if String.eqb u "MB" then Done (VFloat64 (x * 1048576)) None p st
  else if String.eqb u "GB" then Done (VFloat64 (x * 1048576)) None p st
  else Done VNil (Some (ErrUnsupportedFormat a "size")) p st.
Proof.
  intros Hn Ha Hv Hx Hargs.
  rewrite Parse_scalar by (rewrite Hv; reflexivity).
  unfold dispatch, pFormat, pFormatSize.
  rewrite Hn, Ha, Hv, Hargs. simpl. rewrite Hx.
  repeat (match goal with |- context [String.eqb ?a ?b] => destruct (String.eqb a b) end;
          try reflexivity).
Qed.

(** C5. FORMAT/size on a string that parses as the number [x]:
    [Args[0]] in upper case equal to B, KB, MB gives [x] times 1, 2^10,
    2^20; the value 2 with KB gives 2048; a unit that is none of B, KB,
    MB, GB gives UnsupportedFormat(Args[0], size), TB among them. *)
Theorem C5_size_scaling n p st s x a rest :
  strings_ToUpper (Name p) = "FORMAT" ->
  Attribute p = "size" ->
  Value p = VString s ->
  ParseFloat s = inl x ->
  Args p = a :: rest ->
  (strings_ToUpper a = "B" ->
   Parse (S n) p st = Done (VFloat64 (x * 1)) None p st)
  /\ (strings_ToUpper a = "KB" ->
      Parse (S n) p st = Done (VFloat64 (x * 1024)) None p st)
  /\ (strings_ToUpper a = "MB" ->
      Parse (S n) p st = Done (VFloat64 (x * 1048576)) None p st)
  /\ (s = "2" -> x = 2%float -> a = "KB" ->
      Parse (S n) p st = Done (VFloat64 2048) None p st)
  /\ (strings_ToUpper a <> "B" -> strings_ToUpper a <> "KB" ->
      strings_ToUpper a <> "MB" -> strings_ToUpper a <> "GB" ->
      Parse (S n) p st = Done VNil (Some (ErrUnsupportedFormat a "size")) p st)
  /\ (a = "TB" ->
      Parse (S n) p st = Done VNil (Some (ErrUnsupportedFormat "TB" "size")) p st).
Proof.
  intros Hn Ha Hv Hx Hargs.
  rewrite (Parse_format_size n p st s x a rest Hn Ha Hv Hx Hargs). cbv zeta.
  repeat split.
  - intros ->. reflexivity.
  - intros ->. reflexivity.
  - intros ->. reflexivity.
  - intros _ -> ->. reflexivity.
  - intros H1 H2 H3 H4.
    rewrite (eqb_ne _ _ H1), (eqb_ne _ _ H2), (eqb_ne _ _ H3), (eqb_ne _ _ H4).
    reflexivity.
  - intros ->. reflexivity.
Qed.

(** C6. FORMAT/size with [Args[0]] in upper case equal to GB scales the
    parsed number by 2^20, which is what a request that differs only in
    naming MB returns; the value 1 gives 1048576. *)
Theorem C6_gb_scales_like_mb n p st s x a rest :
  strings_ToUpper (Name p) = "FORMAT" ->
  Attribute p = "size" ->
  Value p = VString s ->
  ParseFloat s = inl x ->
  Args p = a :: rest ->
  strings_ToUpper a = "GB" ->
  Parse (S n) p st = Done (VFloat64 (x * 1048576)) None p st
  /\ (forall m q, strings_ToUpper m = "MB" ->
        q = mkParseParams (Attribute p) (Value p) (Name p) (m :: rest) ->
        Parse (S n) q st = Done (VFloat64 (x * 1048576)) None q st)
  /\ (x = 1%float -> Parse (S n) p st = Done (VFloat64 1048576) None p st).
Proof.
  intros Hn Ha Hv Hx Hargs Hu.
  assert (Hp : Parse (S n) p st = Done (VFloat64 (x * 1048576)) None p st).
  { rewrite (Parse_format_size n p st s x a rest Hn Ha Hv Hx Hargs). cbv zeta.
    rewrite Hu. reflexivity. }
  split; [exact Hp|]. split.
  - intros m q Hm ->.
    rewrite (Parse_format_size n (mkParseParams _ _ _ _) st s x m rest Hn Ha Hv Hx eq_refl).
    cbv zeta. rewrite Hm. reflexivity.
  - intros ->. exact Hp.
Qed.

(** C7 (amended). On a scalar under FORMAT with an attribute that is
    none of name, size, time, the call returns the error
    UnsupportedFormat(Args[0], attribute) when [Args] has a first
    element, and panics on [Args[0]] when it has none. *)
Theorem C7_unknown_attribute_unsupported_format n p st :
  is_scalar (Value p) = true ->
  strings_ToUpper (Name p) = "FORMAT" ->
  Attribute p <> "name" -> Attribute p <> "size" -> Attribute p <> "time" ->
  (forall a rest, Args p = a :: rest ->
     Parse (S n) p st
     = Done VNil (Some (ErrUnsupportedFormat a (Attribute p))) p st)
  /\ (Args p = [] -> Parse (S n) p st = Panic).
Proof.
  intros Hs Hn H1 H2 H3. rewrite (Parse_scalar _ _ _ Hs).
  unfold dispatch, pFormat. rewrite Hn. simpl.
  rewrite (eqb_ne _ _ H1), (eqb_ne _ _ H2), (eqb_ne _ _ H3). simpl.
  split.
  - intros a rest ->. reflexivity.
  - intros ->. reflexivity.
Qed.

(** C8 (amended). On a scalar under UPPER or LOWER, a value that is not
    a string makes the type assertion panic; a string gives its
    upper-case, respectively lower-case, form, with the request and
    the store untouched. *)
Theorem C8_case_modifiers n p st :
  is_scalar (Value p) = true ->
  (strings_ToUpper (Name p) = "UPPER" ->
     (as_string (Value p) = None -> Parse (S n) p st = Panic)
     /\ (forall s, Value p = VString s ->
          Parse (S n) p st = Done (VString (strings_ToUpper s)) None p st))
  /\ (strings_ToUpper (Name p) = "LOWER" ->
     (as_string (Value p) = None -> Parse (S n) p st = Panic)
     /\ (forall s, Value p = VString s ->
          Parse (S n) p st = Done (VString (strings_ToLower s)) None p st)).
Proof.
  intros Hs. rewrite (Parse_scalar _ _ _ Hs).
  split; intros Hn; unfold dispatch; rewrite Hn; simpl;
    (split; [intros ->; reflexivity | intros s ->; reflexivity]).
Qed.

(** C9 (amended). FORMAT/time on a string when [Args] has a first
    element: the layout is RFC 3339 for ISO, the date-command layout
    for UNIX, and "Jan 02 2006 15 04" for anything else, [Args[0]]
    being compared in upper case; the call returns the parsed time, or
    the parser's error unchanged.  With no [Args[0]] the call panics. *)
Theorem C9_time_layouts n p st s :
  strings_ToUpper (Name p) = "FORMAT" ->
  Attribute p = "time" ->
  Value p = VString s ->
  (forall a rest, Args p = a :: rest ->
     Parse (S n) p st =
       match time_Parse (time_layout a) s with
       | inl t => Done (VTime t) None p st
       | inr e => Done VNil (Some (TimeErr e)) p st
       end
     /\ (strings_ToUpper a = "ISO" ->
         time_layout a = "2006-01-02T15:04:05Z07:00")
     /\ (strings_ToUpper a = "UNIX" ->
         time_layout a = "Mon Jan _2 15:04:05 MST 2006")
     /\ (strings_ToUpper a <> "ISO" -> strings_ToUpper a <> "UNIX" ->
         time_layout a = "Jan 02 2006 15 04"))
  /\ (Args p = [] -> Parse (S n) p st = Panic).
Proof.
  intros Hn Ha Hv.
  rewrite Parse_scalar by (rewrite Hv; reflexivity).
  unfold dispatch, pFormat, pFormatTime. rewrite Hn, Ha, Hv. simpl.
  split.
  - intros a rest ->. simpl. repeat split.
    + destruct (time_Parse (time_layout a) s); reflexivity.
    + unfold time_layout. intros ->. reflexivity.
    + unfold time_layout. intros ->. reflexivity.
    + unfold time_layout. intros H1 H2.
      rewrite (eqb_ne _ _ H1), (eqb_ne _ _ H2). reflexivity.
  - intros ->. reflexivity.
Qed.

(** C10. With a nil [Value] the classification panics, whatever the
    rest of the request and the store are: no call on a nil value
    returns. *)
Theorem C10_nil_value_panics n attribute name args st :
  Parse (S n) (mkParseParams attribute VNil name args) st = Panic.
Proof. reflexivity. Qed.

(** ** The traversal: loops, the request, the shape of the store *)

Lemma same_request_refl p : same_request p p.
Proof. repeat split. Qed.

Lemma same_request_trans p q r :
  same_request p q -> same_request q r -> same_request p r.
Proof. unfold same_request. intuition congruence. Qed.

Lemma same_request_with_Value p v : same_request (with_Value p v) p.
Proof. repeat split. Qed.

Lemma with_Value_same p q v : same_request p q -> with_Value p v = with_Value q v.
Proof. intros (H1 & H2 & H3). unfold with_Value. rewrite H1, H2, H3. reflexivity. Qed.

(** A rule for the loop over a sequence: an invariant kept by every
    iteration that writes its value back holds when the loop returns
    without error; when it returns an error, the error is that of the
    call on some element, reached with the invariant. *)
Lemma seq_loop_inv rec s (I : nat -> ParseParams -> store -> Prop) todo :
  forall i p st val err p' st',
    seq_loop rec s i todo p st = Done val err p' st' ->
    I i p st ->
    (forall j q sq x v q' sq' sq'',
        i <= j < i + todo -> I j q sq -> rIndex sq s j = Some x ->
        rec (with_Value q x) sq = Done v None q' sq' ->
        rSet sq' s j v = Some sq'' -> I (S j) q' sq'') ->
    (err = None /\ val = rInterface s /\ I (i + todo) p' st')
    \/ (exists j q sq x v e,
          i <= j < i + todo /\ I j q sq /\ rIndex sq s j = Some x /\
          rec (with_Value q x) sq = Done v (Some e) p' st' /\
          err = Some e /\ val = VNil).
Proof.
  induction todo as [|todo IH]; intros i p st val err p' st' Hrun Hi Hstep; simpl in Hrun.
  - inversion Hrun; subst. left. rewrite Nat.add_0_r. auto.
  - destruct (rIndex st s i) as [x|] eqn:Hx; [|discriminate].
    destruct (rec (with_Value p x) st) as [v [e|] q' sq'| |] eqn:Hrec; try discriminate.
    + inversion Hrun; subst. right. exists i, p, st, x, v, e.
      repeat split; auto; lia.
    + destruct (rSet sq' s i v) as [sq''|] eqn:Hset; [|discriminate].
      apply IH in Hrun.
      * destruct Hrun as [(? & ? & HI)|(j & q & sq & y & w & e & Hj & ?)].
        -- left. replace (i + S todo) with (S i + todo) by lia. auto.
        -- right. exists j, q, sq, y, w, e. split; [lia|]. assumption.
      * apply (Hstep i p st x v q' sq' sq''); auto. lia.
      * intros j q sq y w q2 sq2 sq3 Hj. apply Hstep. lia.
Qed.

(** The same rule for the loop over the keys of a map; the invariant
    speaks of the keys already entered. *)
Lemma map_loop_inv rec kt et r (I : list value -> ParseParams -> store -> Prop) keys :
  forall seen p st val err p' st',
    map_loop rec kt et r keys p st = Done val err p' st' ->
    I seen p st ->
    (forall sn q sq key v q' sq' sq'',
        I sn q sq -> key ∈ keys ->
        rec (with_Value q key) sq = Done v None q' sq' ->
        SetMapIndex sq' kt et r v (VBool true) = Some sq'' ->
        I (sn ++ [key]) q' sq'') ->
    (err = None /\ val = VMap kt et r /\ I (seen ++ keys) p' st')
    \/ (exists sn q sq key v e,
          I sn q sq /\ key ∈ keys /\
          rec (with_Value q key) sq = Done v (Some e) p' st' /\
          err = Some e /\ val = VNil).
Proof.
  induction keys as [|key keys IH]; intros seen p st val err p' st' Hrun Hi Hstep;
    simpl in Hrun.
  - inversion Hrun; subst. left. rewrite app_nil_r. auto.
  - destruct (rec (with_Value p key) st) as [v [e|] q' sq'| |] eqn:Hrec; try discriminate.
    + inversion Hrun; subst. right. exists seen, p, st, key, v, e.
      repeat split; auto. left.
    + destruct (SetMapIndex sq' kt et r v (VBool true)) as [sq''|] eqn:Hset; [|discriminate].
      apply (IH (seen ++ [key])) in Hrun.
      * destruct Hrun as [(? & ? & HI)|(sn & q & sq & k & w & e & ? & Hin & ?)].
        -- left. rewrite <- app_assoc in HI. auto.
        -- right. exists sn, q, sq, k, w, e. repeat split; try tauto. right. tauto.
      * apply (Hstep seen p st key v q' sq' sq''); auto. left.
      * intros sn q sq k w q2 sq2 sq3 HI Hin. apply Hstep; auto. right. exact Hin.
Qed.

Lemma Parse_slice n p st et l :
  Value p = VSlice et l ->
  Parse (S n) p st = seq_loop (Parse n) (RSlice et l) 0 (length (elems st l)) p st.
Proof. intros H. simpl. rewrite H. reflexivity. Qed.

Lemma Parse_array n p st et xs :
  Value p = VArray et xs ->
  Parse (S n) p st = seq_loop (Parse n) (RArray et xs) 0 (length xs) p st.
Proof. intros H. simpl. rewrite H. reflexivity. Qed.

Lemma Parse_map n p st kt et m :
  Value p = VMap kt et m ->
  Parse (S n) p st =
  map_loop (Parse n) kt et (length (maps st)) (MapKeys st m) p
    (mkStore (slices st) (maps st ++ [[]])).
Proof. intros H. simpl. rewrite H. reflexivity. Qed.

(** The scalar path returns no slice. *)
Lemma dispatch_val p val err : dispatch p = Ret val err -> slice_part val = None.
Proof.
  unfold dispatch, pFormat, pFormatSize, pFormatTime.
  repeat (match goal with
          | |- context [if ?c then _ else _] => destruct c
          | |- context [match Args p with _ => _ end] => destruct (Args p)
          | |- context [match as_string ?v with _ => _ end] => destruct (as_string v)
          | |- context [match ParseFloat ?v with _ => _ end] => destruct (ParseFloat v)
          | |- context [match time_Parse ?a ?b with _ => _ end] => destruct (time_Parse a b)
          | |- context [match formatName ?a ?b with _ => _ end] => destruct (formatName a b)
          end; simpl);
    intros H; inversion H; reflexivity.
Qed.

Lemma skel_elems a b l :
  skel a = skel b -> slice_part <$> elems a l = slice_part <$> elems b l.
Proof.
  intros H. apply (f_equal (fun s => s !! l)) in H. unfold skel in H.
  rewrite !list_lookup_fmap in H. unfold elems.
  destruct (slices a !! l), (slices b !! l); simpl in *; inversion H; auto.
Qed.

Lemma skel_lookup a b l i :
  skel a = skel b ->
  slice_part <$> (elems a l !! i) = slice_part <$> (elems b l !! i).
Proof. intros H. rewrite <- !list_lookup_fmap, (skel_elems a b l H). reflexivity. Qed.

Lemma skel_write st l i v :
  slice_part <$> (elems st l !! i) = Some (slice_part v) ->
  skel (write st l i v) = skel st.
Proof.
  intros H. unfold skel, write. simpl. apply list_eq. intros k.
  rewrite !list_lookup_fmap. destruct (decide (l = k)) as [->|Hne].
  - rewrite list_lookup_alter_eq. unfold elems in H.
    destruct (slices st !! k) as [xs|]; simpl in *; [|reflexivity].
    f_equal. rewrite list_fmap_insert. apply list_insert_id.
    rewrite list_lookup_fmap. exact H.
  - rewrite list_lookup_alter_ne by exact Hne. reflexivity.
Qed.

Lemma slice_part_inv v e l : slice_part v = Some (e, l) -> v = VSlice e l.
Proof. destruct v; simpl; congruence. Qed.

Lemma prefix_alter_ge {A} (f : A -> A) (l1 l2 : list A) i :
  l1 `prefix_of` l2 -> length l1 <= i -> l1 `prefix_of` alter f i l2.
Proof.
  intros [k ->] Hi. replace i with (length l1 + (i - length l1)) by lia.
  rewrite alter_app_r. apply prefix_app_r. reflexivity.
Qed.

(** What every returning call keeps: the request but for [Value], the
    slices held in the store and where, and the maps the store held;
    and a call that returns a value returns a slice exactly when it
    was given that slice. *)
Ltac split_shape HQ HS HM :=
  split; [exact HQ|]; split; [exact HS|]; split; [exact HM|].

Lemma Parse_shape n :
  forall p st val err p' st',
    Parse n p st = Done val err p' st' ->
    same_request p' p /\ skel st' = skel st /\ maps st `prefix_of` maps st' /\
    (err = None -> slice_part val = slice_part (Value p)).
Proof.
  induction n as [|n IH]; intros p st val err p' st' Hrun; [discriminate|].
  set (I := fun (_ : nat) (q : ParseParams) (sq : store) =>
              same_request q p /\ skel sq = skel st /\ maps st `prefix_of` maps sq).
  assert (Hnest : forall q sq x v e q' sq',
             I 0 q sq -> Parse n (with_Value q x) sq = Done v e q' sq' -> I 0 q' sq').
  { intros q sq x v e q' sq' (Hq & Hs & Hm) Hc.
    destruct (IH _ _ _ _ _ _ Hc) as (Hq' & Hs' & Hm' & _).
    split; [|split].
    - eapply same_request_trans; [exact Hq'|].
      eapply same_request_trans; [apply same_request_with_Value|exact Hq].
    - rewrite Hs'. exact Hs.
    - etrans; eassumption. }
  destruct (Value p) as [| | | | | |et l|et xs|kt et m] eqn:Hv;
    try (rewrite Parse_scalar in Hrun by (rewrite Hv; reflexivity);
         destruct (dispatch p) as [val0 err0|] eqn:Hd; simpl in Hrun; [|discriminate];
         inversion Hrun; subst;
         split; [apply same_request_refl|]; split; [reflexivity|]; split; [reflexivity|];
         intros _; rewrite (dispatch_val _ _ _ Hd); reflexivity).
  - simpl in Hrun. rewrite Hv in Hrun. discriminate.
  - rewrite (Parse_slice _ _ _ _ _ Hv) in Hrun.
    apply (seq_loop_inv _ _ I) in Hrun.
    + destruct Hrun as [(-> & -> & HI)|(j & q & sq & x & v & e & _ & HI & _ & Hc & -> & ->)].
      * destruct HI as (HQ & HS & HM). split_shape HQ HS HM. reflexivity.
      * destruct (Hnest _ _ _ _ _ _ _ HI Hc) as (HQ & HS & HM).
        split_shape HQ HS HM. discriminate.
    + split; [apply same_request_refl|]. split; reflexivity.
    + intros j q sq x v q' sq' sq'' _ HI Hx Hc Hset.
      pose proof (Hnest _ _ _ _ _ _ _ HI Hc) as (Hq & Hs & Hm).
      destruct (IH _ _ _ _ _ _ Hc) as (_ & Hs' & _ & Hsp). specialize (Hsp eq_refl).
      simpl in Hset, Hx, Hsp. destruct (assignable v et); [|discriminate].
      inversion Hset; subst sq''. split; [exact Hq|]. split; [|exact Hm].
      rewrite skel_write; [exact Hs|].
      rewrite (skel_lookup sq' sq l j Hs'), Hx. simpl. congruence.
  - rewrite (Parse_array _ _ _ _ _ Hv) in Hrun.
    apply (seq_loop_inv _ _ I) in Hrun.
    + destruct Hrun as [(-> & -> & HI)|(j & q & sq & x & v & e & _ & HI & _ & Hc & -> & ->)].
      * destruct HI as (HQ & HS & HM). split_shape HQ HS HM. reflexivity.
      * destruct (Hnest _ _ _ _ _ _ _ HI Hc) as (HQ & HS & HM).
        split_shape HQ HS HM. discriminate.
    + split; [apply same_request_refl|]. split; reflexivity.
    + intros j q sq x v q' sq' sq'' _ _ _ _ Hset. discriminate.
  - rewrite (Parse_map _ _ _ _ _ _ Hv) in Hrun.
    apply (map_loop_inv _ _ _ _ (fun _ => I 0) _ []) in Hrun.
    + destruct Hrun as [(-> & -> & HI)|(sn & q & sq & x & v & e & HI & _ & Hc & -> & ->)].
      * destruct HI as (HQ & HS & HM). split_shape HQ HS HM. reflexivity.
      * destruct (Hnest _ _ _ _ _ _ _ HI Hc) as (HQ & HS & HM).
        split_shape HQ HS HM. discriminate.
    + split; [apply same_request_refl|]. split; [reflexivity|].
      simpl. apply prefix_app_r. reflexivity.
    + intros sn q sq x v q' sq' sq'' HI _ Hc Hset.
      pose proof (Hnest _ _ _ _ _ _ _ HI Hc) as (Hq & Hs & Hm).
      unfold SetMapIndex in Hset.
      destruct (assignable v kt && assignable (VBool true) et && hashable v); [|discriminate].
      inversion Hset; subst sq''. split; [exact Hq|]. split; [exact Hs|]. simpl.
      apply prefix_alter_ge; [exact Hm|]. lia.
Qed.

(** ** Aliasing: which backing arrays a call can write *)

Lemma edge_skel a b x y : skel a = skel b -> edge a x y -> edge b x y.
Proof.
  intros H (i & e & Hi). exists i, e.
  pose proof (skel_lookup b a x i (eq_sym H)) as Hl. rewrite Hi in Hl. simpl in Hl.
  destruct (elems b x !! i) as [v|]; [|discriminate].
  simpl in Hl. inversion Hl as [Hv]. rewrite (slice_part_inv _ _ _ Hv). reflexivity.
Qed.

Lemma rtc_edge_skel a b x y : skel a = skel b -> rtc (edge a) x y -> rtc (edge b) x y.
Proof.
  intros H. induction 1 as [|x y z Hxy _ IH]; [apply rtc_refl|].
  eapply rtc_l; [eapply edge_skel; eassumption|exact IH].
Qed.

Lemma tc_edge_skel a b x y : skel a = skel b -> tc (edge a) x y -> tc (edge b) x y.
Proof.
  intros H. induction 1 as [x y Hxy|x y z Hxy _ IH].
  - apply tc_once. eapply edge_skel; eassumption.
  - eapply tc_l; [eapply edge_skel; eassumption|exact IH].
Qed.

(** One iteration of the loop over a slice keeps the slices of the
    store where they are. *)
Lemma step_skel n q sq x v q' sq' l j :
  Parse n (with_Value q x) sq = Done v None q' sq' ->
  elems sq l !! j = Some x ->
  skel (write sq' l j v) = skel sq.
Proof.
  intros Hc Hx. destruct (Parse_shape _ _ _ _ _ _ _ Hc) as (_ & Hs & _ & Hsp).
  specialize (Hsp eq_refl). simpl in Hsp.
  rewrite skel_write; [exact Hs|].
  rewrite (skel_lookup sq' sq l j Hs), Hx. simpl. congruence.
Qed.

(** A call that returns a value writes no backing array but those
    reachable, through slices held in slices, from the slice it was
    given; given anything but a slice, it writes none. *)
Lemma Parse_frame n :
  forall p st val p' st',
    Parse n p st = Done val None p' st' ->
    forall l, slices st' !! l = slices st !! l
              \/ exists et l0, Value p = VSlice et l0 /\ rtc (edge st) l0 l.
Proof.
  induction n as [|n IH]; intros p st val p' st' Hrun; [discriminate|].
  destruct (Value p) as [| | | | | |et l0|et xs|kt et m] eqn:Hv;
    try (rewrite Parse_scalar in Hrun by (rewrite Hv; reflexivity);
         destruct (dispatch p) as [val0 err0|] eqn:Hd; simpl in Hrun; [|discriminate];
         inversion Hrun; subst; intros l; left; reflexivity).
  - simpl in Hrun. rewrite Hv in Hrun. discriminate.
  - rewrite (Parse_slice _ _ _ _ _ Hv) in Hrun.
    apply (seq_loop_inv _ _
             (fun _ _ sq => skel sq = skel st /\
                forall l, slices sq !! l = slices st !! l \/ rtc (edge st) l0 l))
      in Hrun.
    + destruct Hrun as [(_ & _ & _ & HI)|(j & q & sq & x & v & e & _ & _ & _ & _ & He & _)];
        [|discriminate].
      intros l. destruct (HI l) as [H|H]; [left; exact H|right; eauto].
    + split; [reflexivity|]. intros l; left; reflexivity.
    + intros j q sq x v q' sq' sq'' _ (Hs & HI) Hx Hc Hset. simpl in Hx, Hset.
      destruct (assignable v et); [|discriminate]. inversion Hset; subst sq''.
      split; [rewrite (step_skel _ _ _ _ _ _ _ _ _ Hc Hx); exact Hs|].
      intros l. destruct (decide (l0 = l)) as [->|Hne]; [right; apply rtc_refl|].
      rewrite (slices_write_ne _ _ _ _ _ Hne).
      destruct (IH _ _ _ _ _ Hc l) as [H|(et1 & l1 & Hx1 & Hr)].
      * rewrite H. apply HI.
      * right. simpl in Hx1. subst x.
        eapply rtc_l; [|eapply rtc_edge_skel; [exact Hs|exact Hr]].
        eapply edge_skel; [exact Hs|]. exists j, et1. exact Hx.
  - rewrite (Parse_array _ _ _ _ _ Hv) in Hrun.
    apply (seq_loop_inv _ _ (fun _ _ sq => sq = st)) in Hrun.
    + destruct Hrun as [(_ & _ & ->)|(j & q & sq & x & v & e & _ & _ & _ & _ & He & _)];
        [|discriminate].
      intros l; left; reflexivity.
    + reflexivity.
    + intros j q sq x v q' sq' sq'' _ _ _ _ Hset. discriminate.
  - rewrite (Parse_map _ _ _ _ _ _ Hv) in Hrun.
    apply (map_loop_inv _ _ _ _ (fun _ _ sq => slices sq = slices st) _ []) in Hrun.
    + destruct Hrun as [(_ & _ & HI)|(sn & q & sq & x & v & e & _ & _ & _ & He & _)];
        [|discriminate].
      intros l; left. rewrite HI. reflexivity.
    + reflexivity.
    + intros sn q sq key v q' sq' sq'' HI _ Hc Hset.
      unfold SetMapIndex in Hset.
      destruct (assignable v kt && assignable (VBool true) et && hashable v) eqn:Hok;
        [|discriminate].
      inversion Hset; subst sq''. simpl. rewrite <- HI.
      apply list_eq. intros l.
      destruct (IH _ _ _ _ _ Hc l) as [H|(et1 & l1 & Hk & _)]; [exact H|].
      simpl in Hk. subst key.
      destruct (Parse_shape _ _ _ _ _ _ _ Hc) as (_ & _ & _ & Hsp).
      specialize (Hsp eq_refl). simpl in Hsp.
      rewrite (slice_part_inv _ _ _ Hsp) in Hok. simpl in Hok.
      rewrite andb_false_r in Hok. discriminate.
Qed.

Lemma cycle_step {A} (R : relation A) a l :
  rtc R a l -> tc R l l -> exists b, R a b /\ rtc R b l.
Proof.
  intros Hr Ht. destruct (rtc_inv a l Hr) as [->|(b & Hab & Hbl)].
  - inversion Ht as [x y Hll|x y z Hly Hyl]; subst.
    + exists l. split; [exact Hll|apply rtc_refl].
    + exists y. split; [exact Hly|apply tc_rtc; exact Hyl].
  - exists b. split; assumption.
Qed.

(** No call on a slice returns a value when a backing array reachable
    from the slice holds, directly or through further slices, a slice
    of itself: the recursion does not end. *)
Lemma Parse_no_cycle n :
  forall p st val p' st' et l0 l,
    Parse n p st = Done val None p' st' ->
    Value p = VSlice et l0 ->
    rtc (edge st) l0 l -> tc (edge st) l l -> False.
Proof.
  induction n as [|n IH]; intros p st val p' st' et l0 l Hrun Hv Hr Ht; [discriminate|].
  rewrite (Parse_slice _ _ _ _ _ Hv) in Hrun.
  destruct (cycle_step _ _ _ Hr Ht) as (l1 & (j0 & et1 & Hj0) & Hr1).
  apply (seq_loop_inv _ _ (fun j _ sq => skel sq = skel st /\ j <= j0)) in Hrun.
  - destruct Hrun as [(_ & _ & _ & HI)|(j & q & sq & x & v & e & _ & _ & _ & _ & He & _)];
      [|discriminate].
    apply lookup_lt_Some in Hj0. simpl in HI. lia.
  - split; [reflexivity|lia].
  - intros j q sq x v q' sq' sq'' _ (Hs & Hj) Hx Hc Hset. simpl in Hx, Hset.
    destruct (assignable v et); [|discriminate]. inversion Hset; subst sq''.
    split; [rewrite (step_skel _ _ _ _ _ _ _ _ _ Hc Hx); exact Hs|].
    destruct (decide (j = j0)) as [->|Hne]; [exfalso|lia].
    pose proof (skel_lookup sq st l0 j0 Hs) as Hl. rewrite Hx, Hj0 in Hl.
    simpl in Hl. inversion Hl as [Hsp]. apply slice_part_inv in Hsp. subst x.
    apply (IH _ _ _ _ _ et1 l1 l Hc eq_refl).
    + eapply rtc_edge_skel; [symmetry; exact Hs|exact Hr1].
    + eapply tc_edge_skel; [symmetry; exact Hs|exact Ht].
Qed.

(** A call on an element of the backing array at [l] that returns a
    value leaves that backing array as it was. *)
Lemma element_call_keeps n q sq x v q' sq' l j :
  Parse n (with_Value q x) sq = Done v None q' sq' ->
  elems sq l !! j = Some x ->
  slices sq' !! l = slices sq !! l.
Proof.
  intros Hc Hx.
  destruct (Parse_frame _ _ _ _ _ _ Hc l) as [H|(et1 & l1 & Hv & Hr)]; [exact H|].
  exfalso. simpl in Hv. subst x.
  apply (Parse_no_cycle _ _ _ _ _ _ et1 l1 l Hc eq_refl Hr).
  eapply tc_rtc_r; [apply tc_once; exists j, et1; exact Hx|exact Hr].
Qed.

(** ** Aliasing under failure: what a call that returns an error can write *)

Lemma hashable_reaches st v l : reaches st v l -> hashable v = false.
Proof.
  induction 1 as [e l|e l0 x l _ _ _|e xs x l Hin _ IH|kt et m key l _ _ _];
    try reflexivity.
  simpl. destruct (forallb hashable xs) eqn:E; [|reflexivity].
  rewrite forallb_forall in E. rewrite <- (E x); [exact IH|].
  apply list_elem_of_In. exact Hin.
Qed.

Lemma later_refl st : later st st.
Proof.
  split; [|split].
  - intros l j x Hx. exists x. auto.
  - reflexivity.
  - intros m key Hm Hin. unfold MapKeys, entries in Hin.
    rewrite (proj2 (lookup_ge_None _ _) Hm) in Hin. inversion Hin.
Qed.

Lemma put_value_mono st sq v :
  maps st `prefix_of` maps sq -> put_value sq v -> put_value st v.
Proof.
  intros Hp [H|(kt & et & m & -> & Hm)]; [left; exact H|right].
  exists kt, et, m. split; [reflexivity|]. apply prefix_length in Hp. lia.
Qed.

Lemma MapKeys_prefix st sq m :
  maps st `prefix_of` maps sq -> m < length (maps st) -> MapKeys sq m = MapKeys st m.
Proof.
  intros Hp Hm. unfold MapKeys, entries. rewrite (prefix_lookup_eq _ _ m Hp Hm).
  reflexivity.
Qed.

Lemma later_trans st sq sq' : later st sq -> later sq sq' -> later st sq'.
Proof.
  intros (A1 & A2 & A3) (B1 & B2 & B3). split; [|split].
  - intros l j x'' Hx. destruct (B1 l j x'' Hx) as (x' & Hx' & Hrel).
    destruct (A1 l j x' Hx') as (x & Hx0 & Hrel').
    exists x. split; [exact Hx0|].
    destruct Hrel as [->|Hput]; [exact Hrel'|].
    right. eapply put_value_mono; eassumption.
  - etrans; eassumption.
  - intros m key Hm Hin. destruct (decide (length (maps sq) <= m)) as [H|H].
    + apply (B3 m key H Hin).
    + rewrite (MapKeys_prefix sq sq' m B2) in Hin by lia. apply (A3 m key Hm Hin).
Qed.

(** Nothing is reached from a value that was put. *)
Lemma put_value_reaches st sq v l : later st sq -> put_value st v -> reaches sq v l -> False.
Proof.
  intros (_ & _ & A3) [Hs|(kt & et & m & -> & Hm)] Hr.
  - inversion Hr; subst; discriminate.
  - inversion Hr; subst.
    match goal with
    | Hin : _ ∈ MapKeys sq m, Hk : reaches sq _ l |- _ =>
        apply hashable_reaches in Hk; rewrite (A3 _ _ Hm Hin) in Hk; discriminate
    end.
Qed.

(** What is reached in the later store was reached before. *)
Lemma later_reaches st sq v l : later st sq -> reaches sq v l -> reaches st v l.
Proof.
  intros Hl. induction 1 as [e l|e l0 x l Hin Hr IH|e xs x l Hin _ IH|kt et m key l Hin Hr IH].
  - constructor.
  - apply list_elem_of_lookup in Hin as [j Hj].
    destruct (proj1 Hl l0 j x Hj) as (x0 & Hx0 & [->|Hput]).
    + eapply reaches_elem; [|exact IH]. apply list_elem_of_lookup. eauto.
    + exfalso. eapply put_value_reaches; eassumption.
  - eapply reaches_array; eassumption.
  - destruct Hl as (_ & A2 & A3).
    destruct (decide (length (maps st) <= m)) as [H|H].
    + apply hashable_reaches in Hr. rewrite (A3 m key H Hin) in Hr. discriminate.
    + rewrite (MapKeys_prefix st sq m A2) in Hin by lia.
      eapply reaches_key; eassumption.
Qed.

(** What is reached from an element of a backing array is reached from
    its slices. *)
Lemma elem_reaches st sq e l0 j x l :
  later st sq -> elems sq l0 !! j = Some x -> reaches sq x l -> reaches st (VSlice e l0) l.
Proof.
  intros Hl Hx Hr. apply (later_reaches st sq _ _ Hl).
  eapply reaches_elem; [|exact Hr]. apply list_elem_of_lookup. eauto.
Qed.

Lemma later_write st sq l0 j v :
  later st sq ->
  (forall x0, elems st l0 !! j = Some x0 -> v = x0 \/ put_value st v) ->
  later st (write sq l0 j v).
Proof.
  intros (A1 & A2 & A3) Hv. split; [|split]; [|exact A2|exact A3].
  intros l i y Hy. destruct (decide (l0 = l)) as [<-|Hne].
  - rewrite elems_write in Hy.
    apply list_lookup_insert_Some in Hy as [(<- & <- & Hlt)|(Hne & Hy)].
    + destruct (lookup_lt_is_Some_2 _ _ Hlt) as [x' Hx'].
      destruct (A1 l0 j x' Hx') as (x0 & Hx0 & _).
      exists x0. split; [exact Hx0|]. apply Hv. exact Hx0.
    + apply A1. exact Hy.
  - rewrite (elems_eq _ sq l (slices_write_ne _ _ _ _ _ Hne)) in Hy. apply A1. exact Hy.
Qed.

Lemma later_map_put st sq r v b :
  later st sq -> length (maps st) <= r -> hashable v = true ->
  later st (map_put sq r v b).
Proof.
  intros (A1 & A2 & A3) Hr Hh. split; [exact A1|split].
  - simpl. apply prefix_alter_ge; assumption.
  - intros m key Hm Hin. destruct (decide (r = m)) as [<-|Hne].
    + unfold MapKeys in Hin. rewrite entries_map_put in Hin.
      destruct (decide (r < length (maps sq))); [|inversion Hin].
      apply list_elem_of_fmap in Hin as (e & -> & He).
      destruct (map_set_keys _ _ _ _ He) as [->|Hold]; [exact Hh|].
      apply (A3 r e.1 Hr). unfold MapKeys. apply list_elem_of_fmap. eauto.
    + apply (A3 m key Hm). unfold MapKeys, entries in *.
      rewrite maps_map_put_ne in Hin by exact Hne. exact Hin.
Qed.

Lemma later_MakeMap st : later st (mkStore (slices st) (maps st ++ [[]])).
Proof.
  split; [|split].
  - intros l j x Hx. exists x. auto.
  - simpl. apply prefix_app_r. reflexivity.
  - intros m key Hm Hin. unfold MapKeys, entries in Hin. simpl in Hin.
    destruct (decide (m = length (maps st))) as [->|Hne].
    + rewrite lookup_app_r, Nat.sub_diag in Hin by lia. inversion Hin.
    + rewrite (proj2 (lookup_ge_None _ _)) in Hin; [inversion Hin|].
      rewrite length_app. simpl. lia.
Qed.

(** The scalar path returns a scalar when it returns a value. *)
Lemma dispatch_scalar p val : dispatch p = Ret val None -> is_scalar val = true.
Proof.
  unfold dispatch, pFormat, pFormatSize, pFormatTime.
  repeat (match goal with
          | |- context [match Args p with _ => _ end] => destruct (Args p)
          | |- context [match as_string ?v with _ => _ end] => destruct (as_string v)
          | |- context [match ParseFloat ?v with _ => _ end] => destruct (ParseFloat v)
          | |- context [match time_Parse ?a ?b with _ => _ end] => destruct (time_Parse a b)
          | |- context [match formatName ?a ?b with _ => _ end] => destruct (formatName a b)
          | |- context [if ?c then _ else _] => destruct c
          end; simpl);
    intros H; inversion H; reflexivity.
Qed.

(** What every returning call, failed or not, does to the store: it
    leaves a later store, writes no backing array but those reached
    from its [Value], and returns its [Value] or a value it puts. *)
Lemma Parse_later n :
  forall p st val err p' st',
    Parse n p st = Done val err p' st' ->
    later st st'
    /\ (forall l, slices st' !! l = slices st !! l \/ reaches st (Value p) l)
    /\ (err = None -> val = Value p \/ put_value st val).
Proof.
  induction n as [|n IH]; intros p st val err p' st' Hrun; [discriminate|].
  set (I := fun (_ : nat) (_ : ParseParams) (sq : store) =>
              later st sq /\
              forall l, slices sq !! l = slices st !! l \/ reaches st (Value p) l).
  assert (Hfail : forall (q : ParseParams) sq x v e q' sq',
             I 0 q sq ->
             (forall l, reaches sq x l -> reaches st (Value p) l) ->
             Parse n (with_Value q x) sq = Done v e q' sq' -> I 0 q' sq').
  { intros q sq x v e q' sq' (Hl & Hf) Hx Hc.
    destruct (IH _ _ _ _ _ _ Hc) as (Hl' & Hf' & _). split.
    - eapply later_trans; eassumption.
    - intros l. destruct (Hf' l) as [H|H]; [rewrite H; apply Hf|].
      right. apply Hx. exact H. }
  destruct (Value p) as [| | | | | |et l0|et xs|kt et m] eqn:Hv;
    try (rewrite Parse_scalar in Hrun by (rewrite Hv; reflexivity);
         destruct (dispatch p) as [val0 err0|] eqn:Hd; simpl in Hrun; [|discriminate];
         inversion Hrun; subst;
         split; [apply later_refl|]; split; [intros l; left; reflexivity|];
         intros ->; right; left; eapply dispatch_scalar; exact Hd).
  - simpl in Hrun. rewrite Hv in Hrun. discriminate.
  - rewrite (Parse_slice _ _ _ _ _ Hv) in Hrun.
    apply (seq_loop_inv _ _ I) in Hrun.
    + destruct Hrun as [(-> & -> & HI & HF)|(j & q & sq & x & v & e & _ & HI & Hx & Hc & -> & ->)].
      * split; [exact HI|]. split; [exact HF|]. intros _. left. reflexivity.
      * destruct (Hfail _ _ _ _ _ _ _ HI (fun l => elem_reaches st sq et l0 j x l (proj1 HI) Hx) Hc)
          as (HI' & HF').
        split; [exact HI'|]. split; [exact HF'|]. discriminate.
    + split; [apply later_refl|]. intros l; left; reflexivity.
    + intros j q sq x v q' sq' sq'' _ HI Hx Hc Hset. simpl in Hx, Hset.
      destruct (assignable v et); [|discriminate]. inversion Hset; subst sq''.
      destruct (Hfail _ _ _ _ _ _ _ HI (fun l => elem_reaches st sq et l0 j x l (proj1 HI) Hx) Hc)
        as (HI' & HF').
      destruct (IH _ _ _ _ _ _ Hc) as (_ & _ & Hval). specialize (Hval eq_refl).
      simpl in Hval. destruct HI as (HI & _). split.
      * apply later_write; [exact HI'|]. intros x0 Hx0.
        destruct Hval as [->|Hput].
        -- destruct (proj1 HI l0 j x Hx) as (x1 & Hx1 & Hrel).
           rewrite Hx0 in Hx1. inversion Hx1; subst x1. exact Hrel.
        -- right. eapply put_value_mono; [exact (proj1 (proj2 HI))|exact Hput].
      * intros l. destruct (decide (l0 = l)) as [->|Hne]; [right; constructor|].
        rewrite (slices_write_ne _ _ _ _ _ Hne). apply HF'.
  - rewrite (Parse_array _ _ _ _ _ Hv) in Hrun.
    apply (seq_loop_inv _ _ I) in Hrun.
    + destruct Hrun as [(-> & -> & HI & HF)|(j & q & sq & x & v & e & _ & HI & Hx & Hc & -> & ->)].
      * split; [exact HI|]. split; [exact HF|]. intros _. left. reflexivity.
      * simpl in Hx.
        assert (Hr : forall l, reaches sq x l -> reaches st (VArray et xs) l).
        { intros l Hr. eapply reaches_array; [apply list_elem_of_lookup; eauto|].
          eapply later_reaches; [exact (proj1 HI)|exact Hr]. }
        destruct (Hfail _ _ _ _ _ _ _ HI Hr Hc) as (HI' & HF').
        split; [exact HI'|]. split; [exact HF'|]. discriminate.
    + split; [apply later_refl|]. intros l; left; reflexivity.
    + intros j q sq x v q' sq' sq'' _ _ _ _ Hset. discriminate.
  - rewrite (Parse_map _ _ _ _ _ _ Hv) in Hrun.
    assert (Hkey : forall sq key l, later st sq -> key ∈ MapKeys st m ->
                     reaches sq key l -> reaches st (VMap kt et m) l).
    { intros sq key l Hl Hin Hr. eapply reaches_key; [exact Hin|].
      eapply later_reaches; eassumption. }
    apply (map_loop_inv _ _ _ _ (fun _ => I 0) _ []) in Hrun.
    + destruct Hrun as [(-> & -> & HI & HF)|(sn & q & sq & key & v & e & HI & Hin & Hc & -> & ->)].
      * split; [exact HI|]. split; [exact HF|]. intros _. right. right.
        exists kt, et, (length (maps st)). split; [reflexivity|lia].
      * destruct (Hfail _ _ _ _ _ _ _ HI (fun l => Hkey sq key l (proj1 HI) Hin) Hc)
          as (HI' & HF').
        split; [exact HI'|]. split; [exact HF'|]. discriminate.
    + split; [apply later_MakeMap|]. intros l; left; reflexivity.
    + intros sn q sq key v q' sq' sq'' HI Hin Hc Hset.
      destruct (Hfail _ _ _ _ _ _ _ HI (fun l => Hkey sq key l (proj1 HI) Hin) Hc)
        as (HI' & HF').
      unfold SetMapIndex in Hset.
      destruct (assignable v kt); [|discriminate].
      destruct (assignable (VBool true) et); [|discriminate].
      destruct (hashable v) eqn:Hh; [|discriminate].
      inversion Hset; subst sq''. split.
      * apply later_map_put; [exact HI'|lia|exact Hh].
      * exact HF'.
Qed.

(** ** Sequences *)

(** The loop over a slice, run on elements that are transformed in
    order: it reaches the index after them with the values written in
    their places and the other cells of the backing array as they
    were. *)
Lemma seq_loop_transformed n p et l :
  forall i st xs vs st1,
    transformed n p et l i st xs vs st1 ->
    forall q pre rest m,
      same_request q p ->
      elems st l = pre ++ xs ++ rest ->
      length pre = i ->
      length vs = length xs
      /\ elems st1 l = pre ++ vs ++ rest
      /\ later st st1
      /\ exists q1,
          same_request q1 p /\
          seq_loop (Parse n) (RSlice et l) i (length xs + m) q st
          = seq_loop (Parse n) (RSlice et l) (i + length xs) m q1 st1.
Proof.
  induction 1 as [i st|i st x xs v vs p1 st1 st2 Hc Hok _ IH];
    intros q pre rest m Hq Hel Hlen.
  - split; [reflexivity|]. split; [exact Hel|]. split; [apply later_refl|].
    exists q. split; [exact Hq|]. simpl. rewrite Nat.add_0_r. reflexivity.
  - assert (Hx : elems st l !! i = Some x).
    { rewrite Hel. simpl. apply list_lookup_middle. symmetry. exact Hlen. }
    pose proof (element_call_keeps _ _ _ _ _ _ _ _ _ Hc Hx) as Hkeep.
    destruct (Parse_shape _ _ _ _ _ _ _ Hc) as (Hp1 & _).
    destruct (Parse_later _ _ _ _ _ _ _ Hc) as (Hlat & _ & Hval).
    specialize (Hval eq_refl). simpl in Hval.
    destruct (IH p1 (pre ++ [v]) rest m) as (Hl & He & Hlat2 & q1 & Hq1 & Hloop).
    + eapply same_request_trans; [exact Hp1|apply same_request_with_Value].
    + rewrite elems_write, (elems_eq _ _ _ Hkeep), Hel. simpl.
      replace i with (length pre + 0) by lia.
      rewrite insert_app_r. simpl. rewrite <- app_assoc. reflexivity.
    + rewrite length_app. simpl. lia.
    + split; [simpl; congruence|]. split.
      { rewrite He, <- app_assoc. reflexivity. }
      split.
      { eapply later_trans; [|exact Hlat2]. apply later_write; [exact Hlat|].
        intros x0 Hx0. rewrite Hx in Hx0. inversion Hx0; subst x0. exact Hval. }
      exists q1. split; [exact Hq1|]. simpl.
      change (rIndex st (RSlice et l) i) with (elems st l !! i). rewrite Hx.
      rewrite (with_Value_same q p x Hq), Hc. simpl. rewrite Hok.
      rewrite Hloop. f_equal. lia.
Qed.



(** Where the write-back is refused: a value the element type of the
    slice does not accept, any value on an array. *)
Lemma slice_write_back_refused n p st et l x v p1 st1 :
  Value p = VSlice et l ->
  elems st l !! 0 = Some x ->
  Parse n (with_Value p x) st = Done v None p1 st1 ->
  assignable v et = false ->
  Parse (S n) p st = Panic.
Proof.
  intros Hv Hx Hc Hno. rewrite (Parse_slice _ _ _ _ _ Hv).
  destruct (elems st l) as [|y ys] eqn:E; [discriminate|].
  simpl in Hx. inversion Hx; subst y. simpl. rewrite E. simpl.
  rewrite Hc. simpl. rewrite Hno. reflexivity.
Qed.

Lemma array_write_back_refused n p st et x xs v p1 st1 :
  Value p = VArray et (x :: xs) ->
  Parse n (with_Value p x) st = Done v None p1 st1 ->
  Parse (S n) p st = Panic.
Proof.
  intros Hv Hc. rewrite (Parse_array _ _ _ _ _ Hv). simpl. rewrite Hc. reflexivity.
Qed.



(** ** Maps *)




(** *** The entries of a map built from keys *)








(** Where the entry is refused: an element type that does not admit
    [true], a transformed key the key type does not accept. *)
Lemma map_entry_refused n p st kt et m key keys v p1 st1 :
  Value p = VMap kt et m ->
  MapKeys st m = key :: keys ->
  Parse n (with_Value p key) (mkStore (slices st) (maps st ++ [[]])) = Done v None p1 st1 ->
  assignable (VBool true) et = false \/ assignable v kt = false ->
  Parse (S n) p st = Panic.
Proof.
  intros Hv Hk Hc Hno. rewrite (Parse_map _ _ _ _ _ _ Hv), Hk. simpl.
  rewrite Hc. unfold SetMapIndex.
  destruct Hno as [-> | ->]; [rewrite andb_false_r|]; reflexivity.
Qed.


End Properties.

(** * Further properties of the traversal and of the formats *)

Section Further.
Context `{Ext : Externals}.

(** ** Where errors come from *)

Lemma dispatch_err p val e : dispatch p = Ret val (Some e) -> val = VNil.
Proof.
  unfold dispatch, pFormat, pFormatSize, pFormatTime.
  repeat (match goal with
          | |- context [match Args p with _ => _ end] => destruct (Args p)
          | |- context [match as_string ?v with _ => _ end] => destruct (as_string v)
          | |- context [match ParseFloat ?v with _ => _ end] => destruct (ParseFloat v)
          | |- context [match time_Parse ?a ?b with _ => _ end] => destruct (time_Parse a b)
          | |- context [match formatName ?a ?b with _ => _ end] => destruct (formatName a b)
          | |- context [if ?c then _ else _] => destruct c
          end; simpl);
    intros H; inversion H; reflexivity.
Qed.

(** An error a call returns is the error of the scalar path on the
    request as the call leaves it. *)
Lemma Parse_error_origin n :
  forall p st val e p' st',
    Parse n p st = Done val (Some e) p' st' ->
    val = VNil /\ is_scalar (Value p') = true /\ dispatch p' = Ret VNil (Some e).
Proof.
  induction n as [|n IH]; intros p st val e p' st' Hrun; [discriminate|].
  destruct (Value p) as [| | | | | |et l|et xs|kt et m] eqn:Hv;
    try (rewrite Parse_scalar in Hrun by (rewrite Hv; reflexivity);
         destruct (dispatch p) as [val0 err0|] eqn:Hd; simpl in Hrun; [|discriminate];
         inversion Hrun; subst;
         pose proof (dispatch_err _ _ _ Hd) as ->;
         split; [reflexivity|]; split; [rewrite Hv; reflexivity|exact Hd]).
  - simpl in Hrun. rewrite Hv in Hrun. discriminate.
  - rewrite (Parse_slice _ _ _ _ _ Hv) in Hrun.
    destruct (seq_loop_inv _ _ (fun _ _ _ => True) _ _ _ _ _ _ _ _ Hrun I) as
      [(He & _)|(j & q & sq & x & v & e' & _ & _ & _ & Hc & He & ->)];
      [auto|discriminate|].
    inversion He; subst e'. destruct (IH _ _ _ _ _ _ Hc) as (_ & H2 & H3). auto.
  - rewrite (Parse_array _ _ _ _ _ Hv) in Hrun.
    destruct (seq_loop_inv _ _ (fun _ _ _ => True) _ _ _ _ _ _ _ _ Hrun I) as
      [(He & _)|(j & q & sq & x & v & e' & _ & _ & _ & Hc & He & ->)];
      [auto|discriminate|].
    inversion He; subst e'. destruct (IH _ _ _ _ _ _ Hc) as (_ & H2 & H3). auto.
  - rewrite (Parse_map _ _ _ _ _ _ Hv) in Hrun.
    destruct (map_loop_inv _ _ _ _ (fun _ _ _ => True) _ [] _ _ _ _ _ _ Hrun I) as
      [(He & _)|(sn & q & sq & x & v & e' & _ & _ & Hc & He & ->)];
      [auto|discriminate|].
    inversion He; subst e'. destruct (IH _ _ _ _ _ _ Hc) as (_ & H2 & H3). auto.
Qed.

(** X1. A call that returns an error, at whatever depth of slices and
    maps the error arose, returns no value and leaves the request with
    the failing scalar as [Value] and its other fields as they were:
    the error is the one a call on that request alone gives, never
    wrapped or replaced on the way up. *)
Theorem error_is_that_of_the_failing_scalar n p st val e p' st' :
  Parse n p st = Done val (Some e) p' st' ->
  val = VNil
  /\ same_request p' p
  /\ is_scalar (Value p') = true
  /\ (forall m s, Parse (S m) p' s = Done VNil (Some e) p' s).
Proof.
  intros Hrun. destruct (Parse_error_origin _ _ _ _ _ _ _ Hrun) as (H1 & H2 & H3).
  destruct (Parse_shape _ _ _ _ _ _ _ Hrun) as (H4 & _).
  split; [exact H1|]. split; [exact H4|]. split; [exact H2|].
  intros m s. rewrite (Parse_scalar _ _ _ H2), H3. reflexivity.
Qed.

(** X2. Under UPPER and under LOWER no call returns an error, on a
    scalar or through any nesting of slices and maps: a call that
    returns, returns a value. *)
Theorem case_modifiers_return_no_error n p st val err p' st' :
  strings_ToUpper (Name p) = "UPPER" \/ strings_ToUpper (Name p) = "LOWER" ->
  Parse n p st = Done val err p' st' ->
  err = None.
Proof.
  intros Hn Hrun. destruct err as [e|]; [exfalso|reflexivity].
  destruct (Parse_error_origin _ _ _ _ _ _ _ Hrun) as (_ & _ & Hd).
  destruct (Parse_shape _ _ _ _ _ _ _ Hrun) as ((_ & Hname & _) & _).
  unfold dispatch in Hd. rewrite Hname in Hd.
  destruct Hn as [Hn|Hn]; rewrite Hn in Hd; simpl in Hd;
    destruct (as_string (Value p')); discriminate.
Qed.

(** X3. With a name that is none of the three in upper case, every
    error a call returns, on a scalar or from inside slices and maps,
    is NotImplemented with the name and the attribute of the
    request. *)
Theorem unregistered_name_errors_are_not_implemented n p st val e p' st' :
  strings_ToUpper (Name p) <> "FORMAT" ->
  strings_ToUpper (Name p) <> "UPPER" ->
  strings_ToUpper (Name p) <> "LOWER" ->
  Parse n p st = Done val (Some e) p' st' ->
  e = ErrNotImplemented (Name p) (Attribute p).
Proof.
  intros H1 H2 H3 Hrun.
  destruct (Parse_error_origin _ _ _ _ _ _ _ Hrun) as (_ & _ & Hd).
  destruct (Parse_shape _ _ _ _ _ _ _ Hrun) as ((Hattr & Hname & _) & _).
  unfold dispatch in Hd. rewrite Hname, Hattr in Hd.
  rewrite (eqb_ne _ _ H1), (eqb_ne _ _ H2), (eqb_ne _ _ H3) in Hd.
  simpl in Hd. inversion Hd. reflexivity.
Qed.

(** X4. Under FORMAT every error a call returns, at any depth, is one
    of three: UnsupportedFormat with [Args[0]] and the attribute of the
    request, the number parser's error (only under the attribute
    size), or the time parser's error (only under the attribute
    time); it is never NotImplemented. *)
Theorem format_errors n p st val e p' st' :
  strings_ToUpper (Name p) = "FORMAT" ->
  Parse n p st = Done val (Some e) p' st' ->
  (exists a rest, Args p = a :: rest /\ e = ErrUnsupportedFormat a (Attribute p))
  \/ (exists ne, e = NumErr ne /\ Attribute p = "size")
  \/ (exists te, e = TimeErr te /\ Attribute p = "time").
Proof.
  intros Hn Hrun.
  destruct (Parse_error_origin _ _ _ _ _ _ _ Hrun) as (_ & _ & Hd).
  destruct (Parse_shape _ _ _ _ _ _ _ Hrun) as ((Hattr & Hname & Hargs) & _).
  unfold dispatch in Hd. rewrite Hname, Hn in Hd. simpl in Hd.
  unfold pFormat, pFormatSize, pFormatTime in Hd. rewrite Hattr, Hargs in Hd.
  destruct (String.eqb (Attribute p) "name") eqn:E1.
  { destruct (Args p) as [|a rest]; [discriminate|].
    destruct (as_string (Value p')); [|discriminate].
    destruct (formatName a s); simpl in Hd; inversion Hd. left. eauto. }
  destruct (String.eqb (Attribute p) "size") eqn:E2.
  { apply String.eqb_eq in E2.
    destruct (as_string (Value p')); [|discriminate].
    destruct (ParseFloat s) as [x|ne].
    - destruct (Args p) as [|a rest]; [discriminate|].
      repeat (match type of Hd with
              | context [if ?c then _ else _] => destruct c
              end; simpl in Hd; try discriminate).
      inversion Hd. left. rewrite E2. eauto.
    - simpl in Hd. inversion Hd. right. left. eauto. }
  destruct (String.eqb (Attribute p) "time") eqn:E3.
  { apply String.eqb_eq in E3.
    destruct (Args p) as [|a rest]; [discriminate|].
    destruct (as_string (Value p')); [|discriminate].
    destruct (time_Parse (time_layout a) s) as [t|te]; simpl in Hd; [discriminate|].
    inversion Hd. right. right. eauto. }
  simpl in Hd. destruct (Args p) as [|a rest]; [discriminate|].
  inversion Hd. left. eauto.
Qed.

(** ** What a call returns and what it touches *)

(** X5. What a call returns when it returns a value: given a slice,
    that same slice; given an array, the array, which then is empty
    and nothing else has changed; given a map, a map of the same type
    at a location the store did not hold; given a scalar, a scalar,
    with the request and the store as they were.  It is never the nil
    interface. *)
Theorem returned_value_by_kind n p st val p' st' :
  Parse n p st = Done val None p' st' ->
  val <> VNil
  /\ match Value p with
     | VNil => False
     | VSlice _ _ => val = Value p
     | VArray _ xs => xs = [] /\ val = Value p /\ p' = p /\ st' = st
     | VMap kt et _ =>
         val = VMap kt et (length (maps st)) /\ maps st !! length (maps st) = None
     | _ => is_scalar val = true /\ p' = p /\ st' = st
     end.
Proof.
  intros Hrun. destruct n as [|n]; [discriminate|].
  destruct (Value p) as [| | | | | |et l|et xs|kt et m] eqn:Hv;
    try (rewrite Parse_scalar in Hrun by (rewrite Hv; reflexivity);
         destruct (dispatch p) as [val0 err0|] eqn:Hd; simpl in Hrun; [|discriminate];
         inversion Hrun; subst;
         pose proof (dispatch_scalar _ _ Hd) as Hs;
         split; [intros ->; discriminate|auto]).
  - simpl in Hrun. rewrite Hv in Hrun. discriminate.
  - rewrite (Parse_slice _ _ _ _ _ Hv) in Hrun.
    destruct (seq_loop_inv _ _ (fun _ _ _ => True) _ _ _ _ _ _ _ _ Hrun I) as
      [(_ & -> & _)|(? & ? & ? & ? & ? & ? & _ & _ & _ & _ & He & _)];
      [auto| |discriminate].
    split; [discriminate|reflexivity].
  - rewrite (Parse_array _ _ _ _ _ Hv) in Hrun.
    destruct xs as [|x xs]; simpl in Hrun.
    + inversion Hrun; subst. split; [discriminate|auto].
    + destruct (Parse n (with_Value p x) st) as [v [e|] q sq| |]; discriminate.
  - rewrite (Parse_map _ _ _ _ _ _ Hv) in Hrun.
    destruct (map_loop_inv _ _ _ _ (fun _ _ _ => True) _ [] _ _ _ _ _ _ Hrun I) as
      [(_ & -> & _)|(? & ? & ? & ? & ? & ? & _ & _ & _ & He & _)];
      [auto| |discriminate].
    split; [discriminate|]. split; [reflexivity|]. apply lookup_ge_None. lia.
Qed.

(** X6. What no returning call does, failed or not: it changes the
    length of no backing array and adds none to the store; it moves
    no slice held in a backing array; it writes no map the store
    held, the map it is given included. *)
Theorem store_footprint n p st val err p' st' :
  Parse n p st = Done val err p' st' ->
  length (slices st') = length (slices st)
  /\ (forall l, length (elems st' l) = length (elems st l))
  /\ (forall l i e b,
        elems st' l !! i = Some (VSlice e b) <-> elems st l !! i = Some (VSlice e b))
  /\ (forall m, m < length (maps st) -> entries st' m = entries st m)
  /\ length (maps st) <= length (maps st').
Proof.
  intros Hrun. destruct (Parse_shape _ _ _ _ _ _ _ Hrun) as (_ & Hs & Hm & _).
  assert (Hside : forall a b l i e c, skel a = skel b ->
                    elems a l !! i = Some (VSlice e c) -> elems b l !! i = Some (VSlice e c)).
  { intros a b l i e c Hab Hi.
    pose proof (skel_lookup b a l i (eq_sym Hab)) as Hl. rewrite Hi in Hl. simpl in Hl.
    destruct (elems b l !! i) as [v|]; [|discriminate].
    simpl in Hl. inversion Hl as [Hv]. rewrite (slice_part_inv _ _ _ Hv). reflexivity. }
  repeat apply conj.
  - apply (f_equal length) in Hs. unfold skel in Hs. rewrite !length_fmap in Hs. exact Hs.
  - intros l. rewrite <- (length_fmap slice_part (elems st' l)), (skel_elems _ _ l Hs).
    apply length_fmap.
  - intros l i e b. split; apply Hside; [exact Hs|symmetry; exact Hs].
  - intros m Hlt. unfold entries. rewrite (prefix_lookup_eq _ _ m Hm Hlt). reflexivity.
  - apply prefix_length. exact Hm.
Qed.

(** X7. A returning call, failed or not, writes no backing array but
    those reached from its [Value]: that of the slice it is given and
    those of the slices held, at any depth, in its elements. *)
Theorem unreached_arrays_untouched n p st val err p' st' l :
  Parse n p st = Done val err p' st' ->
  ~ reaches st (Value p) l ->
  slices st' !! l = slices st !! l /\ elems st' l = elems st l.
Proof.
  intros Hrun Hno. destruct (Parse_later _ _ _ _ _ _ _ Hrun) as (_ & Hf & _).
  destruct (Hf l) as [H|H]; [|contradiction].
  split; [exact H|apply elems_eq; exact H].
Qed.


(** ** Slices and maps of scalars *)

Lemma with_Value_Value p q : same_request q p -> with_Value p (Value q) = q.
Proof.
  intros H. rewrite <- (with_Value_same q p (Value q) H). destruct q; reflexivity.
Qed.

Lemma store_insert_elems st l : mkStore (<[l := elems st l]> (slices st)) (maps st) = st.
Proof.
  destruct st as [sl mp]. unfold elems. simpl. f_equal.
  destruct (sl !! l) as [ys|] eqn:E; simpl.
  - apply list_insert_id. exact E.
  - apply list_insert_ge. apply lookup_ge_None. exact E.
Qed.

Lemma list_insert_alter_same {A} (f : A -> A) (xs : list A) i y :
  <[i := y]> (alter f i xs) = <[i := y]> xs.
Proof.
  apply list_eq. intros j. rewrite !list_lookup_insert, length_alter.
  case_decide as H; [reflexivity|].
  destruct (decide (i = j)) as [->|Hne]; [|apply list_lookup_alter_ne; exact Hne].
  rewrite list_lookup_alter_eq.
  assert (xs !! j = None) as -> by (apply lookup_ge_None; lia). reflexivity.
Qed.

Lemma last_default_cons {A} (d x : A) xs : default d (last (x :: xs)) = default x (last xs).
Proof.
  destruct xs as [|y ys]; [reflexivity|]. change (last (x :: y :: ys)) with (last (y :: ys)).
  destruct (last (y :: ys)) eqn:E; [reflexivity|]. apply last_None in E. discriminate.
Qed.

Lemma seq_loop_S rec s i todo p st :
  seq_loop rec s i (S todo) p st =
  match rIndex st s i with
  | None => Panic
  | Some x =>
      match rec (with_Value p x) st with
      | Done _ (Some e) p' st' => Done VNil (Some e) p' st'
      | Done val None p' st' =>
          match rSet st' s i val with
          | None => Panic
          | Some st'' => seq_loop rec s (S i) todo p' st''
          end
      | Panic => Panic
      | OutOfFuel => OutOfFuel
      end
  end.
Proof. reflexivity. Qed.

Lemma map_loop_cons rec kt et r key keys p st :
  map_loop rec kt et r (key :: keys) p st =
  match rec (with_Value p key) st with
  | Done _ (Some e) p' st' => Done VNil (Some e) p' st'
  | Done val None p' st' =>
      match SetMapIndex st' kt et r val (VBool true) with
      | None => Panic
      | Some st'' => map_loop rec kt et r keys p' st''
      end
  | Panic => Panic
  | OutOfFuel => OutOfFuel
  end.
Proof. reflexivity. Qed.

Lemma seq_loop_flat n p et l :
  forall xs vs,
    Forall2 (scalar_result p et) xs vs ->
    forall i pre q sq,
      same_request q p -> elems sq l = pre ++ xs -> length pre = i ->
      seq_loop (Parse (S n)) (RSlice et l) i (length xs) q sq
      = Done (VSlice et l) None (with_Value p (default (Value q) (last xs)))
          (mkStore (<[l := pre ++ vs]> (slices sq)) (maps sq)).
Proof.
  induction 1 as [|x v xs vs (Hs & Hd & Hok) _ IH]; intros i pre q sq Hq Hel Hlen.
  - simpl. rewrite (with_Value_Value p q Hq), <- Hel, store_insert_elems. reflexivity.
  - assert (Hx : elems sq l !! i = Some x).
    { rewrite Hel. apply list_lookup_middle. symmetry. exact Hlen. }
    change (length (x :: xs)) with (S (length xs)). rewrite seq_loop_S.
    change (rIndex sq (RSlice et l) i) with (elems sq l !! i). rewrite Hx.
    rewrite (with_Value_same q p x Hq).
    rewrite (Parse_scalar n (with_Value p x) sq Hs), Hd.
    unfold lift, rSet. rewrite Hok.
    rewrite (IH (S i) (pre ++ [v]) (with_Value p x) (write sq l i v)).
    + simpl. rewrite list_insert_alter_same, <- app_assoc. simpl.
      rewrite last_default_cons. reflexivity.
    + apply same_request_with_Value.
    + rewrite elems_write, Hel. replace i with (length pre + 0) by lia.
      rewrite insert_app_r. simpl. rewrite <- app_assoc. reflexivity.
    + rewrite length_app. simpl. lia.
Qed.

(** X9. On a slice of scalars the call is the scalar transformation
    applied to every element in place: when each element transforms
    into a value the element type accepts, any fuel from 2 on returns
    the slice with exactly those values in its backing array and the
    rest of the store as it was; and the request is left with the
    last element, as it was before the call, as [Value] in place of
    the slice. *)
Theorem slice_of_scalars_is_mapped_in_place n p st et l vs :
  Value p = VSlice et l ->
  Forall2 (scalar_result p et) (elems st l) vs ->
  Parse (S (S n)) p st
  = Done (VSlice et l) None
      (with_Value p (default (Value p) (last (elems st l))))
      (mkStore (<[l := vs]> (slices st)) (maps st)).
Proof.
  intros Hv Hall. rewrite (Parse_slice _ _ _ _ _ Hv).
  apply (seq_loop_flat n p et l _ _ Hall 0 [] p st (same_request_refl p)); reflexivity.
Qed.

Lemma scalar_hashable v : is_scalar v = true -> hashable v = true.
Proof. destruct v; simpl; congruence. Qed.

Lemma map_loop_flat n p kt et r :
  assignable (VBool true) et = true ->
  forall keys vs,
    Forall2 (scalar_result p kt) keys vs ->
    forall q sq acc,
      same_request q p -> maps sq !! r = Some acc ->
      map_loop (Parse (S n)) kt et r keys q sq
      = Done (VMap kt et r) None (with_Value p (default (Value q) (last keys)))
          (mkStore (slices sq)
             (<[r := foldl (fun a v => map_set v (VBool true) a) acc vs]> (maps sq))).
Proof.
  intros Het. induction 1 as [|x v xs vs (Hs & Hd & Hok) _ IH]; intros q sq acc Hq Hr.
  - simpl. rewrite (with_Value_Value p q Hq), (list_insert_id _ _ _ Hr).
    destruct sq; reflexivity.
  - rewrite map_loop_cons, (with_Value_same q p x Hq).
    rewrite (Parse_scalar n (with_Value p x) sq Hs), Hd.
    unfold lift, SetMapIndex. rewrite Hok, Het.
    rewrite (scalar_hashable v (dispatch_scalar _ _ Hd)). cbn [andb].
    rewrite (IH (with_Value p x) (map_put sq r v (VBool true))
               (map_set v (VBool true) acc)).
    + simpl. rewrite list_insert_alter_same, last_default_cons. reflexivity.
    + apply same_request_with_Value.
    + simpl. rewrite list_lookup_alter_eq, Hr. reflexivity.
Qed.

(** X10. On a map with scalar keys whose element type admits [true]:
    when each key transforms into a value the key type accepts, any
    fuel from 2 on returns a map of the same type added at the end of
    the store, holding the transformed keys entered in turn with
    [true]; nothing else in the store changes, and the request is left
    with the last key as [Value]. *)
Theorem map_of_scalar_keys_becomes_a_set n p st kt et m vs :
  Value p = VMap kt et m ->
  assignable (VBool true) et = true ->
  Forall2 (scalar_result p kt) (MapKeys st m) vs ->
  Parse (S (S n)) p st
  = Done (VMap kt et (length (maps st))) None
      (with_Value p (default (Value p) (last (MapKeys st m))))
      (mkStore (slices st) (maps st ++ [set_of_keys vs])).
Proof.
  intros Hv Het Hall. rewrite (Parse_map _ _ _ _ _ _ Hv).
  rewrite (map_loop_flat n p kt et _ Het _ _ Hall p _ [] (same_request_refl p)).
  - simpl. replace (length (maps st)) with (length (maps st) + 0) at 2 by lia.
    rewrite insert_app_r. reflexivity.
  - simpl. rewrite lookup_app_r, Nat.sub_diag by lia. reflexivity.
Qed.

(** X11. On an empty slice, an empty array and a map without keys the
    modifier is never looked at: the call returns the slice or the
    array itself, or a new empty map, and no error, under any name
    (one that is not registered too) and any element type of the
    map. *)
Theorem empty_containers_skip_the_modifier n p st :
  (forall et l, Value p = VSlice et l -> elems st l = [] ->
     Parse (S n) p st = Done (Value p) None p st)
  /\ (forall et, Value p = VArray et [] -> Parse (S n) p st = Done (Value p) None p st)
  /\ (forall kt et m, Value p = VMap kt et m -> MapKeys st m = [] ->
        Parse (S n) p st
        = Done (VMap kt et (length (maps st))) None p
            (mkStore (slices st) (maps st ++ [[]]))).
Proof.
  repeat apply conj.
  - intros et l Hv He. rewrite (Parse_slice _ _ _ _ _ Hv), He, Hv. reflexivity.
  - intros et Hv. rewrite (Parse_array _ _ _ _ _ Hv), Hv. reflexivity.
  - intros kt et m Hv Hk. rewrite (Parse_map _ _ _ _ _ _ Hv), Hk. reflexivity.
Qed.

(** ** The formats *)

(** X12. FORMAT/size parses the number before it looks at the unit: a
    string that is not a number gives the parser's error whatever
    [Args] is, empty or naming no unit; with a number and an empty
    [Args] the call panics. *)
Theorem size_number_is_parsed_before_the_unit n p st s :
  strings_ToUpper (Name p) = "FORMAT" ->
  Attribute p = "size" ->
  Value p = VString s ->
  (forall ne, ParseFloat s = inr ne ->
     Parse (S n) p st = Done VNil (Some (NumErr ne)) p st)
  /\ (forall x, ParseFloat s = inl x -> Args p = [] -> Parse (S n) p st = Panic).
Proof.
  intros Hn Ha Hv.
  rewrite Parse_scalar by (rewrite Hv; reflexivity).
  unfold dispatch, pFormat, pFormatSize. rewrite Hn, Ha, Hv. simpl.
  split.
  - intros ne ->. reflexivity.
  - intros x -> ->. reflexivity.
Qed.

(** X13. FORMAT/name on a string, with an [Args[0]]: the call returns
    the name under the convention [Args[0]], as a string, or
    UnsupportedFormat with [Args[0]] and name when the convention
    gives nothing.  It panics with no [Args[0]] and on a value that is
    not a string. *)
Theorem format_name n p st :
  strings_ToUpper (Name p) = "FORMAT" ->
  Attribute p = "name" ->
  is_scalar (Value p) = true ->
  (forall s a rest, Value p = VString s -> Args p = a :: rest ->
     Parse (S n) p st =
       match formatName a s with
       | Some r => Done (VString r) None p st
       | None => Done VNil (Some (ErrUnsupportedFormat a "name")) p st
       end)
  /\ (Args p = [] -> Parse (S n) p st = Panic)
  /\ (as_string (Value p) = None -> Parse (S n) p st = Panic).
Proof.
  intros Hn Ha Hs. rewrite (Parse_scalar _ _ _ Hs).
  unfold dispatch, pFormat. rewrite Hn, Ha. simpl. repeat apply conj.
  - intros s a rest -> ->. simpl. destruct (formatName a s); reflexivity.
  - intros ->. reflexivity.
  - intros ->. destruct (Args p); reflexivity.
Qed.

(** ** Panics and sizes *)

(** X14. A panic in the call on an element of a slice is the panic of
    the whole call, after the elements before it have been
    transformed and written back; so it is with a nil element in a
    slice of interfaces. *)
Theorem element_panic_propagates n p st et l k x vs stk :
  Value p = VSlice et l ->
  elems st l !! k = Some x ->
  transformed n p et l 0 st (take k (elems st l)) vs stk ->
  (Parse n (with_Value p x) stk = Panic -> Parse (S n) p st = Panic)
  /\ (x = VNil -> 0 < n -> Parse (S n) p st = Panic).
Proof.
  intros Hv Hx Ht.
  pose proof (lookup_lt_Some _ _ _ Hx) as Hk.
  assert (Hsplit : elems st l = [] ++ take k (elems st l) ++ x :: drop (S k) (elems st l)).
  { simpl. symmetry. apply take_drop_middle. exact Hx. }
  destruct (seq_loop_transformed _ _ _ _ _ _ _ _ _ Ht p [] _
              (S (length (drop (S k) (elems st l)))) (same_request_refl p) Hsplit eq_refl)
    as (Hl & He & _ & q1 & Hq1 & Hloop).
  rewrite length_take in Hl. simpl in He.
  assert (Hstk : elems stk l !! k = Some x).
  { rewrite He. apply list_lookup_middle. lia. }
  assert (Hpanic : Parse n (with_Value p x) stk = Panic -> Parse (S n) p st = Panic).
  { intros Hc. rewrite (Parse_slice _ _ _ _ _ Hv).
    replace (length (elems st l))
      with (length (take k (elems st l)) + S (length (drop (S k) (elems st l)))).
    - rewrite Hloop. simpl.
      rewrite length_take. replace (k `min` length (elems st l)) with k by lia.
      rewrite Hstk, (with_Value_same q1 p x Hq1), Hc. reflexivity.
    - rewrite length_take, length_drop. lia. }
  split; [exact Hpanic|].
  intros -> Hn. apply Hpanic. destruct n as [|n]; [lia|reflexivity].
Qed.

Lemma map_set_length k v kvs : length (map_set k v kvs) <= S (length kvs).
Proof.
  induction kvs as [|[k' v'] kvs IH]; simpl; [lia|].
  destruct (key_eqb k' k); simpl; lia.
Qed.

(** X15. The map a call returns has at most as many entries as the
    map it was given has keys: transformed keys that are [==] share
    one entry. *)
Theorem new_map_is_no_larger n p st kt et m val p' st' :
  Value p = VMap kt et m ->
  Parse n p st = Done val None p' st' ->
  length (entries st' (length (maps st))) <= length (entries st m).
Proof.
  intros Hv Hrun. destruct n as [|n]; [discriminate|].
  rewrite (Parse_map _ _ _ _ _ _ Hv) in Hrun.
  apply (map_loop_inv _ _ _ _
           (fun seen _ sq => length (entries sq (length (maps st))) <= length seen /\
                             length (maps st) < length (maps sq)) _ []) in Hrun.
  - destruct Hrun as [(_ & _ & Hlen & _)|(? & ? & ? & ? & ? & ? & _ & _ & _ & He & _)];
      [|discriminate].
    simpl in Hlen. unfold MapKeys in Hlen. rewrite length_fmap in Hlen. exact Hlen.
  - unfold entries. simpl. rewrite lookup_app_r, Nat.sub_diag by lia.
    rewrite length_app. simpl. lia.
  - intros sn q sq key v q' sq' sq'' (Hlen & Hr) _ Hc Hset.
    destruct (Parse_shape _ _ _ _ _ _ _ Hc) as (_ & _ & Hpre & _).
    unfold SetMapIndex in Hset.
    destruct (assignable v kt && assignable (VBool true) et && hashable v); [|discriminate].
    inversion Hset; subst sq''.
    pose proof (prefix_length _ _ Hpre) as Hle.
    rewrite entries_map_put. destruct (decide _); [|lia].
    split; [|simpl; rewrite length_alter; lia].
    unfold entries at 1. rewrite (prefix_lookup_eq _ _ _ Hpre Hr).
    fold (entries sq (length (maps st))).
    pose proof (map_set_length v (VBool true) (entries sq (length (maps st)))).
    rewrite length_app. simpl. lia.
Qed.

End Further.

(** * The statements at the concrete environment *)

(** C1 at the name FOO. *)
Lemma C1_witness :
  is_scalar (VString "abc") = true
  /\ Parse (Ext := ascii_env) 1 (scalar_request "size" (VString "abc") "FOO" ["KB"])
       empty_store
     = Done VNil (Some (ErrNotImplemented "FOO" "size"))
         (scalar_request "size" (VString "abc") "FOO" ["KB"]) empty_store.
Proof.
  split; [reflexivity|].
  apply (proj1 (C1_unregistered_name_not_implemented (Ext := ascii_env) 0
                  (scalar_request "size" (VString "abc") "FOO" ["KB"])
                  empty_store eq_refl));
    vm_compute; discriminate.
Defined.

(** C5 at the value 2 and the unit kb. *)
Lemma C5_witness :
  Parse (Ext := ascii_env) 1 (scalar_request "size" (VString "2") "format" ["kb"])
    empty_store
  = Done (VFloat64 (2 * 1024)) None
      (scalar_request "size" (VString "2") "format" ["kb"]) empty_store.
Proof.
  apply (proj1 (proj2 (C5_size_scaling (Ext := ascii_env) 0
                         (scalar_request "size" (VString "2") "format" ["kb"])
                         empty_store "2" 2%float "kb" []
                         eq_refl eq_refl eq_refl eq_refl eq_refl))).
  reflexivity.
Defined.

(** C6 at the value 1 and the unit GB. *)
Lemma C6_witness :
  Parse (Ext := ascii_env) 1 (scalar_request "size" (VString "1") "FORMAT" ["GB"])
    empty_store
  = Done (VFloat64 1048576) None
      (scalar_request "size" (VString "1") "FORMAT" ["GB"]) empty_store.
Proof.
  apply (proj2 (proj2 (C6_gb_scales_like_mb (Ext := ascii_env) 0
                         (scalar_request "size" (VString "1") "FORMAT" ["GB"])
                         empty_store "1" 1%float "GB" []
                         eq_refl eq_refl eq_refl eq_refl eq_refl eq_refl))).
  reflexivity.
Defined.

(** C7: FORMAT with the attribute hash returns UnsupportedFormat, not
    NotImplemented. *)
Lemma C7_counterexample :
  Parse (Ext := ascii_env) 1 (scalar_request "hash" (VString "x") "FORMAT" ["SHA1"])
    empty_store
  = Done VNil (Some (ErrUnsupportedFormat "SHA1" "hash"))
      (scalar_request "hash" (VString "x") "FORMAT" ["SHA1"]) empty_store
  /\ ErrUnsupportedFormat "SHA1" "hash" <> ErrNotImplemented "FORMAT" "hash".
Proof. split; [reflexivity|discriminate]. Qed.

Lemma C7_witness :
  Parse (Ext := ascii_env) 1 (scalar_request "hash" (VString "x") "FORMAT" ["SHA1"])
    empty_store
  = Done VNil (Some (ErrUnsupportedFormat "SHA1" "hash"))
      (scalar_request "hash" (VString "x") "FORMAT" ["SHA1"]) empty_store.
Proof.
  apply (proj1 (C7_unknown_attribute_unsupported_format (Ext := ascii_env) 0
                  (scalar_request "hash" (VString "x") "FORMAT" ["SHA1"])
                  empty_store eq_refl eq_refl
                  ltac:(discriminate) ltac:(discriminate) ltac:(discriminate))
           "SHA1" [] eq_refl).
Defined.

(** C8: UPPER on an integer panics; no error is returned. *)
Lemma C8_counterexample :
  Parse (Ext := ascii_env) 1 (scalar_request "name" (VInt 7) "UPPER" []) empty_store
  = Panic.
Proof. reflexivity. Qed.

Lemma C8_witness :
  Parse (Ext := ascii_env) 1 (scalar_request "name" (VString "abc") "UPPER" [])
    empty_store
  = Done (VString "ABC") None (scalar_request "name" (VString "abc") "UPPER" [])
      empty_store.
Proof.
  apply (proj2 (proj1 (C8_case_modifiers (Ext := ascii_env) 0
                         (scalar_request "name" (VString "abc") "UPPER" [])
                         empty_store eq_refl) eq_refl) "abc" eq_refl).
Defined.

(** C9: FORMAT/time with no [Args[0]] panics; no layout is chosen. *)
Lemma C9_counterexample :
  Parse (Ext := ascii_env) 1
    (scalar_request "time" (VString "2020-01-02T15:04:05Z") "FORMAT" []) empty_store
  = Panic.
Proof. reflexivity. Qed.

Lemma C9_witness :
  Parse (Ext := ascii_env) 1
    (scalar_request "time" (VString "2020-01-02T15:04:05Z") "FORMAT" ["ISO"])
    empty_store
  = Done (VTime (time.mkTime 0 63713574245 0)) None
      (scalar_request "time" (VString "2020-01-02T15:04:05Z") "FORMAT" ["ISO"])
      empty_store.
Proof.
  apply (proj1 (proj1 (C9_time_layouts (Ext := ascii_env) 0
                         (scalar_request "time" (VString "2020-01-02T15:04:05Z")
                            "FORMAT" ["ISO"])
                         empty_store "2020-01-02T15:04:05Z" eq_refl eq_refl eq_refl)
                  "ISO" [] eq_refl)).
Defined.







(** * The further properties at the concrete environment *)

(** X1 at the slice 1, x under FORMAT/size. *)
Lemma error_is_that_of_the_failing_scalar_witness :
  VNil = VNil
  /\ same_request (scalar_request "size" (VString "x") "FORMAT" ["KB"])
       (scalar_request "size" (VSlice TIface 0) "FORMAT" ["KB"])
  /\ is_scalar (VString "x") = true
  /\ (forall m s,
        Parse (Ext := ascii_env) (S m)
          (scalar_request "size" (VString "x") "FORMAT" ["KB"]) s
        = Done VNil (Some num_error_x)
            (scalar_request "size" (VString "x") "FORMAT" ["KB"]) s).
Proof.
  apply (error_is_that_of_the_failing_scalar (Ext := ascii_env) 2
           (scalar_request "size" (VSlice TIface 0) "FORMAT" ["KB"]) store_1x
           VNil num_error_x (scalar_request "size" (VString "x") "FORMAT" ["KB"])
           store_1024x).
  reflexivity.
Defined.

(** X2 at the slice a, b under UPPER. *)
Lemma case_modifiers_return_no_error_witness :
  Parse (Ext := ascii_env) 2 (scalar_request "name" (VSlice TString 0) "upper" []) store_ab
  = Done (VSlice TString 0) None (scalar_request "name" (VString "b") "upper" []) store_AB
  /\ @None error = None.
Proof.
  split; [reflexivity|].
  apply (case_modifiers_return_no_error (Ext := ascii_env) 2
           (scalar_request "name" (VSlice TString 0) "upper" []) store_ab
           (VSlice TString 0) None (scalar_request "name" (VString "b") "upper" [])
           store_AB).
  - left. reflexivity.
  - reflexivity.
Defined.

(** X3 at the slice a, b under the name FOO. *)
Lemma unregistered_name_errors_are_not_implemented_witness :
  Parse (Ext := ascii_env) 2 (scalar_request "name" (VSlice TString 0) "FOO" []) store_ab
  = Done VNil (Some (ErrNotImplemented "FOO" "name"))
      (scalar_request "name" (VString "a") "FOO" []) store_ab
  /\ ErrNotImplemented "FOO" "name" = ErrNotImplemented "FOO" "name".
Proof.
  split; [reflexivity|].
  apply (unregistered_name_errors_are_not_implemented (Ext := ascii_env) 2
           (scalar_request "name" (VSlice TString 0) "FOO" []) store_ab
           VNil (ErrNotImplemented "FOO" "name")
           (scalar_request "name" (VString "a") "FOO" []) store_ab);
    try (vm_compute; discriminate).
  reflexivity.
Defined.

(** X4 at the slice 1, x under FORMAT/size. *)
Lemma format_errors_witness :
  (exists a rest, ["KB"] = a :: rest /\ num_error_x = ErrUnsupportedFormat a "size")
  \/ (exists ne, num_error_x = NumErr ne /\ "size" = "size")
  \/ (exists te, num_error_x = TimeErr te /\ "size" = "time").
Proof.
  apply (format_errors (Ext := ascii_env) 2
           (scalar_request "size" (VSlice TIface 0) "FORMAT" ["KB"]) store_1x
           VNil num_error_x (scalar_request "size" (VString "x") "FORMAT" ["KB"])
           store_1024x); reflexivity.
Defined.

(** X5 at the map with keys a, b, A under UPPER. *)
Lemma returned_value_by_kind_witness :
  VMap TIface TBool 1 <> VNil
  /\ VMap TIface TBool 1 = VMap TIface TBool (length (maps store_abA))
  /\ maps store_abA !! length (maps store_abA) = None.
Proof.
  apply (returned_value_by_kind (Ext := ascii_env) 2
           (scalar_request "name" (VMap TIface TBool 0) "UPPER" []) store_abA
           (VMap TIface TBool 1) (scalar_request "name" (VString "A") "UPPER" [])
           store_abA_upper).
  reflexivity.
Defined.

(** X6 at the slice 1, x under FORMAT/size, a call that fails. *)
Lemma store_footprint_witness :
  length (slices store_1024x) = length (slices store_1x)
  /\ (forall l, length (elems store_1024x l) = length (elems store_1x l))
  /\ (forall l i e b,
        elems store_1024x l !! i = Some (VSlice e b) <->
        elems store_1x l !! i = Some (VSlice e b))
  /\ (forall m, m < length (maps store_1x) -> entries store_1024x m = entries store_1x m)
  /\ length (maps store_1x) <= length (maps store_1024x).
Proof.
  apply (store_footprint (Ext := ascii_env) 2
           (scalar_request "size" (VSlice TIface 0) "FORMAT" ["KB"]) store_1x
           VNil (Some num_error_x) (scalar_request "size" (VString "x") "FORMAT" ["KB"])
           store_1024x).
  reflexivity.
Defined.

(** X7 at two slices of strings, the call being on the first. *)
Lemma unreached_arrays_untouched_witness :
  slices store_two_upper !! 1 = slices store_two !! 1
  /\ elems store_two_upper 1 = elems store_two 1.
Proof.
  apply (unreached_arrays_untouched (Ext := ascii_env) 2
           (scalar_request "name" (VSlice TString 0) "UPPER" []) store_two
           (VSlice TString 0) None (scalar_request "name" (VString "a") "UPPER" [])
           store_two_upper 1).
  - reflexivity.
  - intros H. inversion H as [| e l0 x l Hin Hr | |]; subst.
    apply list_elem_of_singleton in Hin. subst x. inversion Hr.
Defined.


(** X9 at the slice a, b under UPPER. *)
Lemma slice_of_scalars_is_mapped_in_place_witness :
  Parse (Ext := ascii_env) 2 (scalar_request "name" (VSlice TString 0) "UPPER" []) store_ab
  = Done (VSlice TString 0) None (scalar_request "name" (VString "b") "UPPER" []) store_AB.
Proof.
  apply (slice_of_scalars_is_mapped_in_place (Ext := ascii_env) 0
           (scalar_request "name" (VSlice TString 0) "UPPER" []) store_ab TString 0
           [VString "A"; VString "B"] eq_refl).
  repeat constructor.
Defined.

(** X10 at the map with keys a, b, A under UPPER. *)
Lemma map_of_scalar_keys_becomes_a_set_witness :
  Parse (Ext := ascii_env) 2 (scalar_request "name" (VMap TIface TBool 0) "UPPER" [])
    store_abA
  = Done (VMap TIface TBool 1) None (scalar_request "name" (VString "A") "UPPER" [])
      store_abA_upper.
Proof.
  apply (map_of_scalar_keys_becomes_a_set (Ext := ascii_env) 0
           (scalar_request "name" (VMap TIface TBool 0) "UPPER" []) store_abA
           TIface TBool 0 [VString "A"; VString "B"; VString "A"] eq_refl eq_refl).
  repeat constructor.
Defined.

(** X11 at an empty slice under the name FOO. *)
Lemma empty_containers_skip_the_modifier_witness :
  Parse (Ext := ascii_env) 1 (scalar_request "name" (VSlice TString 0) "FOO" [])
    (mkStore [[]] [])
  = Done (VSlice TString 0) None (scalar_request "name" (VSlice TString 0) "FOO" [])
      (mkStore [[]] []).
Proof.
  apply (proj1 (empty_containers_skip_the_modifier (Ext := ascii_env) 0
                  (scalar_request "name" (VSlice TString 0) "FOO" []) (mkStore [[]] []))
           TString 0 eq_refl eq_refl).
Defined.

(** X12 at the value x with no [Args]. *)
Lemma size_number_is_parsed_before_the_unit_witness :
  Parse (Ext := ascii_env) 1 (scalar_request "size" (VString "x") "FORMAT" []) empty_store
  = Done VNil (Some num_error_x) (scalar_request "size" (VString "x") "FORMAT" [])
      empty_store.
Proof.
  apply (proj1 (size_number_is_parsed_before_the_unit (Ext := ascii_env) 0
                  (scalar_request "size" (VString "x") "FORMAT" []) empty_store "x"
                  eq_refl eq_refl eq_refl)
           (strconv.mkNumError "ParseFloat" "x" "invalid syntax") eq_refl).
Defined.

(** X13 at the name abc under the convention upper. *)
Lemma format_name_witness :
  Parse (Ext := ascii_env) 1 (scalar_request "name" (VString "abc") "FORMAT" ["upper"])
    empty_store
  = Done (VString "ABC") None (scalar_request "name" (VString "abc") "FORMAT" ["upper"])
      empty_store.
Proof.
  apply (proj1 (format_name (Ext := ascii_env) 0
                  (scalar_request "name" (VString "abc") "FORMAT" ["upper"]) empty_store
                  eq_refl eq_refl eq_refl)
           "abc" "upper" [] eq_refl eq_refl).
Defined.

(** X14 at the slice a, nil under UPPER. *)
Lemma element_panic_propagates_witness :
  Parse (Ext := ascii_env) 2 (scalar_request "name" (VSlice TIface 0) "UPPER" [])
    store_a_nil
  = Panic.
Proof.
  apply (proj2 (element_panic_propagates (Ext := ascii_env) 1
                  (scalar_request "name" (VSlice TIface 0) "UPPER" []) store_a_nil
                  TIface 0 1 VNil [VString "A"] store_A_nil eq_refl eq_refl
                  ltac:(eapply transformed_cons;
                        [reflexivity|reflexivity|apply transformed_nil]))
           eq_refl).
  lia.
Defined.

(** X15 at the map with keys a, b, A under UPPER. *)
Lemma new_map_is_no_larger_witness :
  length (entries store_abA_upper (length (maps store_abA))) <= length (entries store_abA 0).
Proof.
  apply (new_map_is_no_larger (Ext := ascii_env) 2
           (scalar_request "name" (VMap TIface TBool 0) "UPPER" []) store_abA
           TIface TBool 0 (VMap TIface TBool 1)
           (scalar_request "name" (VString "A") "UPPER" []) store_abA_upper eq_refl).
  reflexivity.
Defined.
